(** * Covid-19 Model Ireland: the SEIR derivative and the reproduction number

    A shallow embedding of the notebook [Covid-19 Model Ireland.ipynb].

    Python floats are idealised as real numbers: every arithmetic operation
    of the notebook is the exact operation on [R], with the one behaviour of
    Python division that exact arithmetic can express kept explicit, namely
    that dividing by zero does not produce a number.  Rounding, overflow and
    NaN propagation are outside the model. *)

From Stdlib Require Import Reals List Lra Lia Permutation.
Import ListNotations.

Open Scope R_scope.

(** ** Exceptions and the error monad *)

(** The exceptions a cell of the notebook can raise, followed by the error
    names of the specification's taxonomy that no cell raises. *)
Inductive error : Set :=
| ZeroDivisionError      (* Python: float division by zero *)
| ValueError             (* Python: unpacking a sequence of the wrong length,
                            numpy: reduction of an empty array *)
| SingularMatrix         (* numpy.linalg.LinAlgError("Singular matrix") *)
| OdeintError            (* an error of scipy's odeint itself *)
| InvalidParameter
| InvalidInitialState
| IntegrationDivergence.

Inductive result (A : Type) : Type :=
| Ok (a : A)
| Err (e : error).

Arguments Ok {A} a.
Arguments Err {A} e.

Definition bind {A B : Type} (c : result A) (k : A -> result B) : result B :=
  match c with
  | Ok a => k a
  | Err e => Err e
  end.

Notation "x <- c ;; k" := (bind c (fun x => k))
  (at level 61, c at next level, right associativity).

(** Evaluation of a list display [[e0, e1, ...]]: the elements are evaluated
    from left to right and the first exception aborts the display. *)
Fixpoint sequence {A : Type} (l : list (result A)) : result (list A) :=
  match l with
  | [] => Ok []
  | c :: l' => x <- c ;; xs <- sequence l' ;; Ok (x :: xs)
  end.

(** ** Python float expressions *)

(** A float expression either evaluates to a number or raises. *)
Definition pyfloat : Type := result R.

Definition pure (x : R) : pyfloat := Ok x.
Coercion pure : R >-> pyfloat.

Definition lift1 (op : R -> R) (a : pyfloat) : pyfloat :=
  x <- a ;; Ok (op x).

Definition lift2 (op : R -> R -> R) (a b : pyfloat) : pyfloat :=
  x <- a ;; y <- b ;; Ok (op x y).

(** [a / b] on numbers: raises [ZeroDivisionError] when [b] is zero.  (On
    NumPy scalars the quotient is an infinity or a NaN instead; neither is a
    real number, and both are modelled by the same error.) *)
Definition truediv (x y : R) : pyfloat :=
  if Req_dec_T y 0 then Err ZeroDivisionError else Ok (x / y).

Definition pydiv (a b : pyfloat) : pyfloat :=
  x <- a ;; y <- b ;; truediv x y.

Declare Scope py_scope.
Delimit Scope py_scope with py.
Bind Scope py_scope with pyfloat.

Notation "a + b" := (lift2 Rplus a b) : py_scope.
Notation "a - b" := (lift2 Rminus a b) : py_scope.
Notation "a * b" := (lift2 Rmult a b) : py_scope.
Notation "a / b" := (pydiv a b) : py_scope.
Notation "- a" := (lift1 Ropp a) : py_scope.

(** In a list display of float expressions a bare number is an expression
    too: the expected element type is fixed before the elements are read. *)
#[local] Arguments cons {A} & a l.

(** ** The derivative function (cell [def SEIR]) *)

(** [S, E, Ip, Ia, Is, R = y]: unpacking raises [ValueError] unless [y] has
    exactly six elements. *)
Definition unpack6 {A : Type} (y : list R)
    (k : R -> R -> R -> R -> R -> R -> result A) : result A :=
  match y with
  | [y0; y1; y2; y3; y4; y5] => k y0 y1 y2 y3 y4 y5
  | _ => Err ValueError
  end.

Definition SEIR (y : list R) (t : R)
    (betaP betaA betaS tauE tauP tauI tauD f d N : R) : result (list R) :=
  unpack6 y (fun S E Ip Ia Is R =>
    let dydt :=
      [ -(S/N)*(betaP*Ip + betaA*Ia + betaS*Is);
        (S/N)*(betaP*Ip + betaA*Ia + betaS*Is) - (1/tauE)*E;
        (1/tauE)*E - (1/tauP)*Ip;
        (f/tauP)*Ip - (1/tauI)*Ia;
        ((1-f)/tauP)*Ip - ((1-d)/tauI)*Is - (d/tauD)*Is;
        (1/tauI)*Ia + ((1-d)/tauI)*Is ]%py in
    sequence dydt).

(** Python's [sum]. *)
Definition total (l : list R) : R := fold_right Rplus 0 l.

(** The right-hand sides as the specification writes them, for the state
    [(S, E, Ip, Ia, Is, R)]. *)
Definition SEIR_rhs (S E Ip Ia Is Rc : R)
    (betaP betaA betaS tauE tauP tauI tauD f d N : R) : list R :=
  [ - (S / N) * (betaP * Ip + betaA * Ia + betaS * Is);
    (S / N) * (betaP * Ip + betaA * Ia + betaS * Is) - E / tauE;
    E / tauE - Ip / tauP;
    f * Ip / tauP - Ia / tauI;
    (1 - f) * Ip / tauP - (1 - d) * Is / tauI - d * Is / tauD;
    Ia / tauI + (1 - d) * Is / tauI ].

(** The divisors of [SEIR]. *)
Definition divisors_nonzero (tauE tauP tauI tauD N : R) : Prop :=
  N <> 0 /\ tauE <> 0 /\ tauP <> 0 /\ tauI <> 0 /\ tauD <> 0.

(** ** The parameter cell *)

(** The ten module-level names the notebook assigns before anything else. *)
Record params : Set := Build_params {
  betaP : R; betaA : R; betaS : R;
  tauE : R; tauP : R; tauI : R; tauD : R;
  f : R; d : R;
  N : R
}.

(** The literals of the notebook. *)
Definition notebook : params :=
  {| betaP := 0.8; betaA := 0.8; betaS := 0.8;
     tauE := 3.5; tauP := 1.5; tauI := 3.5; tauD := 14;
     f := 0.3; d := 0.05;
     N := 4.9 * 10 ^ 6 |}.

(** ** Arrays *)

Definition matrix : Type := list (list R).

(** [np.array([[...], ...])] of float expressions: the rows are evaluated in
    order. *)
Definition np_array (rows : list (list pyfloat)) : result matrix :=
  sequence (map sequence rows).

Definition dot (u v : list R) : R :=
  total (map (fun xy => fst xy * snd xy) (combine u v)).

Definition column (j : nat) (b : matrix) : list R :=
  map (fun row => nth j row 0) b.

Definition ncols (b : matrix) : nat := length (hd [] b).

(** [np.matmul(a, b)] on two-dimensional arrays; a shape mismatch raises
    [ValueError]. *)
Definition np_matmul (a b : matrix) : result matrix :=
  if forallb (fun row => Nat.eqb (length row) (length b)) a
  then Ok (map (fun row => map (fun j => dot row (column j b)) (seq 0 (ncols b))) a)
  else Err ValueError.

Fixpoint remove_nth {A : Type} (j : nat) (l : list A) : list A :=
  match l, j with
  | [], _ => []
  | _ :: l', O => l'
  | x :: l', S j' => x :: remove_nth j' l'
  end.

Definition minor (i j : nat) (a : matrix) : matrix :=
  map (remove_nth j) (remove_nth i a).

Definition entry (i j : nat) (a : matrix) : R := nth j (nth i a []) 0.

(** Determinant of the leading [n] x [n] array, expanded along the first
    row. *)
Fixpoint det (n : nat) (a : matrix) : R :=
  match n with
  | O => 1
  | S n' =>
      total (map (fun j => (-1) ^ j * entry 0 j a * det n' (minor 0 j a))
                 (seq 0 n))
  end.

Definition cofactor (n i j : nat) (a : matrix) : R :=
  (-1) ^ (i + j) * det (pred n) (minor i j a).

Definition is_square (a : matrix) : bool :=
  forallb (fun row => Nat.eqb (length row) (length a)) a.

(** [numpy.linalg.inv]: the inverse of a square array, [LinAlgError] when the
    array is not square or is singular.  In exact arithmetic the inverse is
    unique, so it is given here by the adjugate formula; [la_inv_4] below
    checks, for four by four arrays, that it is the inverse on both sides. *)
Definition la_inv (a : matrix) : result matrix :=
  let n := length a in
  if is_square a then
    if Req_dec_T (det n a) 0 then Err SingularMatrix
    else Ok (map (fun i => map (fun j => cofactor n j i a / det n a) (seq 0 n))
                 (seq 0 n))
  else Err SingularMatrix.

Definition identity (n : nat) : matrix :=
  map (fun i => map (fun j => if Nat.eqb i j then 1 else 0) (seq 0 n)) (seq 0 n).

(** ** Eigenvalues *)

(** [x * I - a]. *)
Definition shifted (x : R) (a : matrix) : matrix :=
  map (fun i => map (fun j => (if Nat.eqb i j then x else 0) - entry i j a)
                    (seq 0 (length a)))
      (seq 0 (length a)).

Definition charpoly (a : matrix) (x : R) : R := det (length a) (shifted x a).

Definition matvec (a : matrix) (v : list R) : list R := map (fun row => dot row v) a.

Definition scale (c : R) (v : list R) : list R := map (Rmult c) v.

(** [numpy.linalg.eig] is LAPACK code outside the notebook; it is described
    by what it returns, the pair [(w, v)]: [w] lists the roots of the
    characteristic polynomial, each as often as its multiplicity, in an order
    the caller cannot rely on, and column [i] of [v] is an eigenvector for
    [w[i]].  (A matrix with a non-real eigenvalue has no such pair over [R];
    the matrices of this notebook are triangular.  The normalisation of the
    eigenvectors is left out: the notebook discards [v].) *)
Definition eigenvalues (a : matrix) (w : list R) : Prop :=
  length w = length a /\
  forall x, charpoly a x = fold_right (fun wi acc => (x - wi) * acc) 1 w.

Definition eigenvector (a : matrix) (wi : R) (vi : list R) : Prop :=
  length vi = length a /\ (exists k, nth k vi 0 <> 0) /\ matvec a vi = scale wi vi.

Definition la_eig (a : matrix) (wv : list R * matrix) : Prop :=
  eigenvalues a (fst wv) /\
  length (snd wv) = length a /\
  forall i, (i < length a)%nat -> eigenvector a (nth i (fst wv) 0) (column i (snd wv)).

(** [la.eig(G)[:1]]: the slice of the pair [(w, v)] that keeps [w] only, a
    tuple of one array. *)
Definition tuple_slice1 (wv : list R * matrix) : list (list R) := [fst wv].

(** [np.max] of a sequence of equally long one-dimensional arrays: the
    largest element of all; [ValueError] when there is none. *)
Definition np_max (a : list (list R)) : result R :=
  match concat a with
  | [] => Err ValueError
  | x :: xs => Ok (fold_left Rmax xs x)
  end.

(** ** The reproduction number (cells [V], [F], [G], [R_0]) *)

Definition V (p : params) : result matrix :=
  let (betaP, betaA, betaS, tauE, tauP, tauI, tauD, f, d, N) := p in
  np_array [[1/tauE; 0; 0; 0];
            [-1/tauE; 1/tauP; 0; 0];
            [0; -f/tauP; 1/tauI; 0];
            [0; -(1-f)/tauP; 0; (1-d)/tauI + d/tauD]]%py.

Definition F (p : params) : result matrix :=
  let (betaP, betaA, betaS, tauE, tauP, tauI, tauD, f, d, N) := p in
  np_array [[0; betaP; betaA; betaA]; [0; 0; 0; 0]; [0; 0; 0; 0]; [0; 0; 0; 0]]%py.

Definition G (p : params) : result matrix :=
  v <- V p ;;
  f <- F p ;;
  vinv <- la_inv v ;;
  np_matmul f vinv.

(** [R_0 = np.max(la.eig(G)[:1])]: [R_0 p r] says that the cell evaluates to
    [r], for some pair that [la.eig] may return. *)
Definition R_0 (p : params) (r : result R) : Prop :=
  match G p with
  | Err e => r = Err e
  | Ok g => exists wv, la_eig g wv /\ r = np_max (tuple_slice1 wv)
  end.

(** The closed form of the reproduction number. *)
Definition R_0_closed (p : params) : R :=
  betaP p * tauP p + betaA p * f p * tauI p
  + betaA p * (1 - f p) / ((1 - d p) / tauI p + d p / tauD p).

(** Closed forms of the arrays, for the proofs: the combined rate at which
    the symptomatic leave, by recovery or by death, the array that [V]
    evaluates to, its inverse and the next-generation matrix. *)
Definition removal_rate (p : params) : R := (1 - d p) / tauI p + d p / tauD p.

Definition V_matrix (p : params) : matrix :=
  [[1 / tauE p; 0; 0; 0];
   [-1 / tauE p; 1 / tauP p; 0; 0];
   [0; - f p / tauP p; 1 / tauI p; 0];
   [0; - (1 - f p) / tauP p; 0; removal_rate p]].

Definition V_inverse (p : params) : matrix :=
  [[tauE p; 0; 0; 0];
   [tauP p; tauP p; 0; 0];
   [f p * tauI p; f p * tauI p; tauI p; 0];
   [(1 - f p) / removal_rate p; (1 - f p) / removal_rate p; 0; 1 / removal_rate p]].

Definition F_matrix (p : params) : matrix :=
  [[0; betaP p; betaA p; betaA p]; [0; 0; 0; 0]; [0; 0; 0; 0]; [0; 0; 0; 0]].

Definition G_matrix (p : params) : matrix :=
  [[R_0_closed p; R_0_closed p; betaA p * tauI p; betaA p / removal_rate p];
   [0; 0; 0; 0]; [0; 0; 0; 0]; [0; 0; 0; 0]].

Definition durations_nonzero (p : params) : Prop :=
  tauE p <> 0 /\ tauP p <> 0 /\ tauI p <> 0 /\ tauD p <> 0.

(** The precondition of the claims about [V]: positive durations and a
    fatality fraction in the unit interval. *)
Definition durations_positive (p : params) : Prop :=
  0 < tauE p /\ 0 < tauP p /\ 0 < tauI p /\ 0 < tauD p.

Definition fraction (x : R) : Prop := 0 <= x <= 1.

(** Two parameter records that agree on everything but [betaS]. *)
Definition differ_only_in_betaS (p q : params) : Prop :=
  betaP p = betaP q /\ betaA p = betaA q /\
  tauE p = tauE q /\ tauP p = tauP q /\ tauI p = tauI q /\ tauD p = tauD q /\
  f p = f q /\ d p = d q /\ N p = N q.

(** [p] with another symptomatic transmission rate. *)
Definition with_betaS (b : R) (p : params) : params :=
  {| betaP := betaP p; betaA := betaA p; betaS := b;
     tauE := tauE p; tauP := tauP p; tauI := tauI p; tauD := tauD p;
     f := f p; d := d p; N := N p |}.

(** A parameter record with positive durations, fractions in the unit
    interval and negative transmission rates. *)
Definition negative_rates : params :=
  {| betaP := -1; betaA := -1; betaS := 1;
     tauE := 1; tauP := 1; tauI := 1; tauD := 1;
     f := 0; d := 0;
     N := 1 |}.

(** A parameter record on which [V] is singular: [d] lies outside the unit
    interval and the two exits of the symptomatic class cancel. *)
Definition cancelling_exits : params :=
  {| betaP := 1; betaA := 1; betaS := 1;
     tauE := 1; tauP := 1; tauI := 1; tauD := 2;
     f := 0; d := 2;
     N := 1 |}.

(** ** The integration (cells [y0], [t], [sol]) *)

Definition y0 : list R := [4.9 * 10 ^ 6; 1; 0; 0; 0; 0].

(** [np.linspace(start, stop, num)]. *)
Definition linspace (start stop : R) (num : nat) : list R :=
  map (fun i => start + INR i * ((stop - start) / INR (pred num))) (seq 0 num).

Definition t : list R := linspace 0 70 71.

(** The type of [scipy.integrate.odeint] as the notebook calls it: the
    derivative function with its extra arguments bound, the initial state
    and the time grid; the result has one row per time. *)
Definition solver : Type :=
  (list R -> R -> result (list R)) -> list R -> list R -> result (list (list R)).

(** [func(y, t, *args)] with [args = (betaP, betaA, betaS, tauE, tauP, tauI,
    tauD, f, d, N)]: the call [odeint] makes. *)
Definition SEIR_args (p : params) (y : list R) (t : R) : result (list R) :=
  let (betaP, betaA, betaS, tauE, tauP, tauI, tauD, f, d, N) := p in
  SEIR y t betaP betaA betaS tauE tauP tauI tauD f d N.

(** [sol = odeint(SEIR, y0, t, args = (betaP, ..., N))]. *)
Definition sol (odeint : solver) (p : params) (y0 t : list R)
  : result (list (list R)) :=
  odeint (SEIR_args p) y0 t.

(** What the notebook relies on from [odeint], from its documentation: the
    first row of the result is the initial state as given, and an exception
    is either one of the solver or one the derivative function raised. *)
Record odeint_contract (odeint : solver) : Prop := {
  first_row : forall func y0 t0 ts rows,
    odeint func y0 (t0 :: ts) = Ok rows -> hd_error rows = Some y0;
  row_count : forall func y0 ts rows,
    odeint func y0 ts = Ok rows -> length rows = length ts;
  raised_by : forall func y0 ts e,
    odeint func y0 ts = Err e ->
    e = OdeintError \/ exists y t, func y t = Err e
}.

(** A solver that satisfies the contract, for running [sol]: the explicit
    Euler method on the given grid. *)
Fixpoint euler_steps (func : list R -> R -> result (list R))
    (y : list R) (t0 : R) (ts : list R) : result (list (list R)) :=
  match ts with
  | [] => Ok []
  | t1 :: ts' =>
      dy <- func y t0 ;;
      let y1 := map (fun ab => fst ab + (t1 - t0) * snd ab) (combine y dy) in
      rows <- euler_steps func y1 t1 ts' ;;
      Ok (y1 :: rows)
  end.

Definition euler : solver := fun func y0 ts =>
  match ts with
  | [] => Ok []
  | t0 :: ts' => rows <- euler_steps func y0 t0 ts' ;; Ok (y0 :: rows)
  end.

(** The specification's validation of an initial state: the six components
    sum to [N] within the tolerance [eps]. *)
Definition sums_to_N (eps : R) (p : params) (y0 : list R) : Prop :=
  Rabs (total y0 - N p) <= eps.

(** ** Trajectories *)

(** [odeint] approximates the solution of the initial value problem.  A
    trajectory is a function from time to states; it solves the model when,
    at every time, [SEIR] returns its derivative, component by component. *)
Definition component (i : nat) (y : R -> list R) : R -> R := fun s => nth i (y s) 0.

Definition solves (p : params) (y : R -> list R) : Prop :=
  forall s, exists dydt,
    SEIR_args p (y s) s = Ok dydt /\
    forall i, (i < 6)%nat -> derivable_pt_lim (component i y) s (nth i dydt 0).

(** The right-hand sides of the specification at a parameter record and a
    state given as a list. *)
Definition rhs (p : params) (y : list R) : list R :=
  SEIR_rhs (nth 0 y 0) (nth 1 y 0) (nth 2 y 0) (nth 3 y 0) (nth 4 y 0) (nth 5 y 0)
           (betaP p) (betaA p) (betaS p) (tauE p) (tauP p) (tauI p) (tauD p)
           (f p) (d p) (N p).

(** The parameter records on which no division of [SEIR] fails. *)
Definition defined (p : params) : Prop :=
  divisors_nonzero (tauE p) (tauP p) (tauI p) (tauD p) (N p).

(** ** Vocabulary of the further properties *)

(** Transmission rates that are not negative. *)
Definition nonneg_rates (p : params) : Prop :=
  0 <= betaP p /\ 0 <= betaA p /\ 0 <= betaS p.

(** Element by element combination of two vectors. *)
Definition zip_with (op : R -> R -> R) (u v : list R) : list R :=
  map (fun ab => op (fst ab) (snd ab)) (combine u v).

(** The infected part [(E, Ip, Ia, Is)] of a state or of a derivative, the
    part that the arrays [F] and [V] are indexed by. *)
Definition infected (y : list R) : list R := firstn 4 (skipn 1 y).

(** [p] after a change of the unit of time by the factor [c]: durations are
    multiplied by [c] and rates divided by it. *)
Definition rescale_time (c : R) (p : params) : params :=
  {| betaP := betaP p / c; betaA := betaA p / c; betaS := betaS p / c;
     tauE := c * tauE p; tauP := c * tauP p; tauI := c * tauI p;
     tauD := c * tauD p;
     f := f p; d := d p; N := N p |}.

(** [p] with every transmission rate multiplied by [c]. *)
Definition scale_rates (c : R) (p : params) : params :=
  {| betaP := c * betaP p; betaA := c * betaA p; betaS := c * betaS p;
     tauE := tauE p; tauP := tauP p; tauI := tauI p; tauD := tauD p;
     f := f p; d := d p; N := N p |}.

(** Two parameter records that agree on the six names the cell [R_0]
    depends on beyond the exposed duration: they may differ in [tauE],
    [betaS] and [N]. *)
Definition same_transmission (p q : params) : Prop :=
  betaP p = betaP q /\ betaA p = betaA q /\
  tauP p = tauP q /\ tauI p = tauI q /\ tauD p = tauD q /\
  f p = f q /\ d p = d q.

(** Two parameter records with the same durations and fractions. *)
Definition same_durations (p q : params) : Prop :=
  tauE p = tauE q /\ tauP p = tauP q /\ tauI p = tauI q /\ tauD p = tauD q /\
  f p = f q /\ d p = d q.

(** What the cell [R_0] evaluates to, by cases on the parameters. *)
Definition R_0_outcome (p : params) : result R :=
  if Req_dec_T (tauE p) 0 then Err ZeroDivisionError
  else if Req_dec_T (tauP p) 0 then Err ZeroDivisionError
  else if Req_dec_T (tauI p) 0 then Err ZeroDivisionError
  else if Req_dec_T (tauD p) 0 then Err ZeroDivisionError
  else if Req_dec_T (removal_rate p) 0 then Err SingularMatrix
  else Ok (Rmax 0 (R_0_closed p)).

(** A trajectory that solves the model on the interval from [a] to [b]:
    its values are states, and at every time of the interval [SEIR] returns
    its derivative, component by component. *)
Definition solves_on (p : params) (y : R -> list R) (a b : R) : Prop :=
  (forall s, length (y s) = 6%nat) /\
  forall s, a <= s <= b ->
    exists dydt,
      SEIR_args p (y s) s = Ok dydt /\
      forall i, (i < 6)%nat -> derivable_pt_lim (component i y) s (nth i dydt 0).

(** Two parameter records without transmission, and a trajectory of each: the
    symptomatic only recover ([d = 0]), or only die ([d = 1]), at rate one. *)
Definition recovery_only : params :=
  {| betaP := 0; betaA := 0; betaS := 0;
     tauE := 1; tauP := 1; tauI := 1; tauD := 1;
     f := 0; d := 0;
     N := 1 |}.

Definition recovering (s : R) : list R :=
  [0; 0; 0; 0; exp (- s); 1 - exp (- s)].

Definition dying_only : params :=
  {| betaP := 0; betaA := 0; betaS := 0;
     tauE := 1; tauP := 1; tauI := 1; tauD := 1;
     f := 0; d := 1;
     N := 1 |}.

Definition dying (s : R) : list R := [0; 0; 0; 0; exp (- s); 0].

(** * Properties of the derivative function *)

Ltac py_unfold :=
  cbv [SEIR unpack6 sequence lift1 lift2 pydiv truediv bind pure].

Ltac mat_unfold :=
  cbv [la_inv is_square np_matmul np_array sequence length forallb map seq
       cofactor minor remove_nth entry nth Nat.add pred Nat.eqb andb ncols hd
       column dot combine total fold_right fst snd identity det bind pure
       lift1 lift2 pydiv truediv shifted charpoly matvec scale].

Ltac split_divisions :=
  repeat match goal with
  | |- context [Req_dec_T ?b 0] => destruct (Req_dec_T b 0); try contradiction
  | H : context [Req_dec_T ?b 0] |- _ => destruct (Req_dec_T b 0); try contradiction
  end.

(** Equality of returned lists, element by element. *)
Ltac list_eq :=
  repeat match goal with
  | |- Ok _ = Ok _ => apply f_equal
  | |- cons _ _ = cons _ _ => apply f_equal2
  | |- nil = nil => reflexivity
  end.

Lemma truediv_Ok (x y : R) : y <> 0 -> truediv x y = Ok (x / y).
Proof. intros Hy. unfold truediv. destruct (Req_dec_T y 0); [contradiction | reflexivity]. Qed.

Lemma truediv_Err (x : R) : truediv x 0 = Err ZeroDivisionError.
Proof. unfold truediv. destruct (Req_dec_T 0 0); [reflexivity | exfalso; auto]. Qed.

(** Whenever every divisor is nonzero the call returns, and what it returns
    is the list of the specification's right-hand sides. *)
Lemma SEIR_defined S E Ip Ia Is Rc t betaP betaA betaS tauE tauP tauI tauD f d N :
  divisors_nonzero tauE tauP tauI tauD N ->
  SEIR [S; E; Ip; Ia; Is; Rc] t betaP betaA betaS tauE tauP tauI tauD f d N
  = Ok (SEIR_rhs S E Ip Ia Is Rc betaP betaA betaS tauE tauP tauI tauD f d N).
Proof.
  intros (HN & HE & HP & HI & HD).
  py_unfold. split_divisions.
  unfold SEIR_rhs. list_eq; field; auto.
Qed.

(** With a zero divisor the call raises. *)
Lemma SEIR_zero_divisor S E Ip Ia Is Rc t betaP betaA betaS tauE tauP tauI tauD f d N :
  ~ divisors_nonzero tauE tauP tauI tauD N ->
  SEIR [S; E; Ip; Ia; Is; Rc] t betaP betaA betaS tauE tauP tauI tauD f d N
  = Err ZeroDivisionError.
Proof.
  intros Hnot. py_unfold. split_divisions; try reflexivity.
  exfalso. apply Hnot. unfold divisors_nonzero. auto.
Qed.

(** A list that does not hold six numbers cannot be unpacked. *)
Lemma SEIR_wrong_length y t betaP betaA betaS tauE tauP tauI tauD f d N :
  length y <> 6%nat ->
  SEIR y t betaP betaA betaS tauE tauP tauI tauD f d N = Err ValueError.
Proof.
  intros Hlen.
  destruct y as [|S [|E [|Ip [|Ia [|Is [|Rc [|? ?]]]]]]];
    try reflexivity.
  now contradiction Hlen.
Qed.

(** Conversely a call that returns was given six numbers and nonzero
    divisors. *)
Lemma SEIR_Ok_inv y t betaP betaA betaS tauE tauP tauI tauD f d N dydt :
  SEIR y t betaP betaA betaS tauE tauP tauI tauD f d N = Ok dydt ->
  exists S E Ip Ia Is Rc,
    y = [S; E; Ip; Ia; Is; Rc] /\
    divisors_nonzero tauE tauP tauI tauD N /\
    dydt = SEIR_rhs S E Ip Ia Is Rc betaP betaA betaS tauE tauP tauI tauD f d N.
Proof.
  intros H.
  destruct y as [|S [|E [|Ip [|Ia [|Is [|Rc [|? ?]]]]]]]; try discriminate H.
  exists S, E, Ip, Ia, Is, Rc.
  assert (Hnz : divisors_nonzero tauE tauP tauI tauD N).
  { revert H. py_unfold. unfold divisors_nonzero.
    split_divisions; intros H; try discriminate H; auto. }
  split; [reflexivity | split; [exact Hnz |]].
  rewrite SEIR_defined in H by exact Hnz. now inversion H.
Qed.

Lemma SEIR_args_defined p y t :
  defined p -> length y = 6%nat -> SEIR_args p y t = Ok (rhs p y).
Proof.
  intros Hp Hy.
  destruct y as [|S [|E [|Ip [|Ia [|Is [|Rc [|? ?]]]]]]]; try discriminate Hy.
  destruct p; unfold defined, rhs, SEIR_args in *; cbn [nth] in *.
  now apply SEIR_defined.
Qed.

Lemma SEIR_args_Ok_inv p y t dydt :
  SEIR_args p y t = Ok dydt ->
  length y = 6%nat /\ defined p /\ dydt = rhs p y.
Proof.
  destruct p; unfold SEIR_args, defined, rhs; cbn [betaP betaA betaS tauE tauP tauI tauD f d N].
  intros H. apply SEIR_Ok_inv in H.
  destruct H as (S & E & Ip & Ia & Is & Rc & -> & Hnz & ->).
  split; [reflexivity | split; [exact Hnz | reflexivity]].
Qed.

Lemma total_rhs p y :
  defined p -> total (rhs p y) = - (d p / tauD p) * nth 4 y 0.
Proof.
  intros (HN & HE & HP & HI & HD).
  unfold rhs, SEIR_rhs, total; cbn [fold_right]. field. auto.
Qed.

(** ** Trajectories: the calculus that the statements about runs need *)

Lemma derivable_pt_lim_pointwise (g h : R -> R) (x l : R) :
  (forall u, g u = h u) -> derivable_pt_lim g x l -> derivable_pt_lim h x l.
Proof.
  intros Hgh Hg eps Heps.
  destruct (Hg eps Heps) as [delta Hdelta].
  exists delta. intros k Hk Hlt. rewrite <- !Hgh. now apply Hdelta.
Qed.

Lemma solves_inv p y :
  solves p y ->
  forall s,
    length (y s) = 6%nat /\ defined p /\
    forall i, (i < 6)%nat ->
      derivable_pt_lim (component i y) s (nth i (rhs p (y s)) 0).
Proof.
  intros Hy s. destruct (Hy s) as (dydt & Hcall & Hder).
  apply SEIR_args_Ok_inv in Hcall. destruct Hcall as (Hlen & Hp & ->).
  auto.
Qed.

Lemma total_six (l : list R) :
  length l = 6%nat ->
  total l = nth 0 l 0 + (nth 1 l 0 + (nth 2 l 0 + (nth 3 l 0 + (nth 4 l 0 + (nth 5 l 0 + 0))))).
Proof.
  intros Hl.
  destruct l as [|a0 [|a1 [|a2 [|a3 [|a4 [|a5 [|? ?]]]]]]]; try discriminate Hl.
  reflexivity.
Qed.

Lemma total_derivative p y :
  solves p y ->
  forall s, derivable_pt_lim (fun u => total (y u)) s (total (rhs p (y s))).
Proof.
  intros Hy s.
  pose proof (solves_inv p y Hy) as Hinv.
  destruct (Hinv s) as (_ & _ & Hder).
  rewrite (total_six (rhs p (y s))) by reflexivity.
  apply derivable_pt_lim_pointwise with
    (g := (component 0 y + (component 1 y + (component 2 y + (component 3 y
           + (component 4 y + (component 5 y + fct_cte 0))))))%F).
  - intros u. destruct (Hinv u) as (Hlen & _ & _).
    rewrite (total_six (y u) Hlen). reflexivity.
  - repeat (apply derivable_pt_lim_plus; [apply Hder; lia |]).
    apply derivable_pt_lim_const.
Qed.

Lemma constant_solves p y :
  defined p -> length y = 6%nat -> rhs p y = [0; 0; 0; 0; 0; 0] ->
  solves p (fun _ => y).
Proof.
  intros Hp Hlen Hzero s. exists [0; 0; 0; 0; 0; 0]. split.
  - rewrite <- Hzero. now apply SEIR_args_defined.
  - intros i Hi.
    replace (nth i [0; 0; 0; 0; 0; 0] 0) with 0
      by (do 6 (destruct i as [|i]; [reflexivity|]); lia).
    apply (derivable_pt_lim_const (nth i y 0)).
Qed.

Lemma rhs_disease_free p S Rc :
  defined p -> rhs p [S; 0; 0; 0; 0; Rc] = [0; 0; 0; 0; 0; 0].
Proof.
  intros (HN & HE & HP & HI & HD).
  unfold rhs, SEIR_rhs; cbn [nth].
  list_eq; field; auto.
Qed.

Lemma SEIR_args_disease_free p S Rc t :
  defined p -> SEIR_args p [S; 0; 0; 0; 0; Rc] t = Ok [0; 0; 0; 0; 0; 0].
Proof.
  intros Hp. rewrite SEIR_args_defined by (exact Hp || reflexivity).
  f_equal. now apply rhs_disease_free.
Qed.

(** The explicit Euler method does not leave a state whose derivative is
    zero. *)
Lemma euler_steps_fixed func y t0 ts :
  length y = 6%nat ->
  (forall s, func y s = Ok [0; 0; 0; 0; 0; 0]) ->
  euler_steps func y t0 ts = Ok (map (fun _ => y) ts).
Proof.
  intros Hlen Hzero. revert t0.
  induction ts as [|t1 ts IH]; intros t0; [reflexivity|].
  cbn [euler_steps map]. rewrite Hzero. cbn [bind].
  assert (Hy : map (fun ab => fst ab + (t1 - t0) * snd ab)
                 (combine y [0; 0; 0; 0; 0; 0]) = y).
  { destruct y as [|a0 [|a1 [|a2 [|a3 [|a4 [|a5 [|? ?]]]]]]]; try discriminate Hlen.
    cbn. list_eq; ring. }
  rewrite Hy, IH. reflexivity.
Qed.

Lemma notebook_defined : defined notebook.
Proof. unfold defined, divisors_nonzero, notebook; cbn. repeat split; lra. Qed.

(** ** Trajectories on an interval *)

Lemma solves_on_of_solves p y a b : solves p y -> solves_on p y a b.
Proof.
  intros Hy. split.
  - intros s. now destruct (solves_inv p y Hy s).
  - intros s _. apply Hy.
Qed.

Lemma solves_on_inv p y a b :
  solves_on p y a b ->
  forall s, a <= s <= b ->
    defined p /\
    forall i, (i < 6)%nat ->
      derivable_pt_lim (component i y) s (nth i (rhs p (y s)) 0).
Proof.
  intros [_ Hy] s Hs. destruct (Hy s Hs) as (dydt & Hcall & Hder).
  apply SEIR_args_Ok_inv in Hcall. destruct Hcall as (_ & Hp & ->).
  auto.
Qed.

Lemma total_derivative_on p y a b :
  solves_on p y a b ->
  forall s, a <= s <= b ->
    derivable_pt_lim (fun u => total (y u)) s (total (rhs p (y s))).
Proof.
  intros Hy s Hs.
  destruct (solves_on_inv p y a b Hy s Hs) as (_ & Hder).
  destruct Hy as [Hlen _].
  rewrite (total_six (rhs p (y s))) by reflexivity.
  apply derivable_pt_lim_pointwise with
    (g := (component 0 y + (component 1 y + (component 2 y + (component 3 y
           + (component 4 y + (component 5 y + fct_cte 0))))))%F).
  - intros u. rewrite (total_six (y u) (Hlen u)). reflexivity.
  - repeat (apply derivable_pt_lim_plus; [apply Hder; lia |]).
    apply derivable_pt_lim_const.
Qed.

(** The mean value theorem, as the statements about runs use it. *)
Lemma nondecreasing_on (g g' : R -> R) (a b : R) :
  (forall c, a <= c <= b -> derivable_pt_lim g c (g' c)) ->
  (forall c, a <= c <= b -> 0 <= g' c) ->
  forall x z, a <= x -> x <= z -> z <= b -> g x <= g z.
Proof.
  intros Hder Hsign x z Hax Hxz Hzb.
  destruct (Rle_lt_or_eq_dec _ _ Hxz) as [Hlt | ->]; [| apply Rle_refl].
  destruct (MVT_cor2 g g' x z Hlt) as (c & Heq & Hc).
  { intros c Hc. apply Hder. lra. }
  assert (0 <= g' c * (z - x)) by (apply Rmult_le_pos; [apply Hsign |]; lra).
  lra.
Qed.

Lemma nonincreasing_on (g g' : R -> R) (a b : R) :
  (forall c, a <= c <= b -> derivable_pt_lim g c (g' c)) ->
  (forall c, a <= c <= b -> g' c <= 0) ->
  forall x z, a <= x -> x <= z -> z <= b -> g z <= g x.
Proof.
  intros Hder Hsign x z Hax Hxz Hzb.
  destruct (Rle_lt_or_eq_dec _ _ Hxz) as [Hlt | ->]; [| apply Rle_refl].
  destruct (MVT_cor2 g g' x z Hlt) as (c & Heq & Hc).
  { intros c Hc. apply Hder. lra. }
  assert (0 <= - g' c * (z - x)).
  { apply Rmult_le_pos; [| lra]. assert (g' c <= 0) by (apply Hsign; lra). lra. }
  lra.
Qed.

Lemma decreasing_on (g g' : R -> R) (a b : R) :
  a < b ->
  (forall c, a <= c <= b -> derivable_pt_lim g c (g' c)) ->
  (forall c, a <= c <= b -> g' c < 0) ->
  g b < g a.
Proof.
  intros Hab Hder Hsign.
  destruct (MVT_cor2 g g' a b Hab Hder) as (c & Heq & Hc).
  assert (0 < - g' c * (b - a)).
  { apply Rmult_lt_0_compat; [| lra]. assert (g' c < 0) by (apply Hsign; lra). lra. }
  lra.
Qed.

(** ** Two trajectories in closed form *)

Lemma exp_opp_derivative s : derivable_pt_lim (fun u => exp (- u)) s (- exp (- s)).
Proof.
  replace (- exp (- s)) with (exp (- s) * - 1) by ring.
  apply (derivable_pt_lim_pointwise (comp exp (- id)%F)); [reflexivity |].
  apply derivable_pt_lim_comp.
  - apply derivable_pt_lim_opp. apply derivable_pt_lim_id.
  - apply derivable_pt_lim_exp.
Qed.

Lemma recovery_only_defined : defined recovery_only.
Proof. unfold defined, divisors_nonzero, recovery_only; cbn. repeat split; lra. Qed.

Lemma dying_only_defined : defined dying_only.
Proof. unfold defined, divisors_nonzero, dying_only; cbn. repeat split; lra. Qed.

Lemma recovering_solves : solves recovery_only recovering.
Proof.
  intros s. exists (rhs recovery_only (recovering s)).
  split; [apply SEIR_args_defined; [exact recovery_only_defined | reflexivity] |].
  intros i Hi. unfold component, recovering, rhs, SEIR_rhs, recovery_only.
  cbn [betaP betaA betaS tauE tauP tauI tauD f d N].
  do 4 (destruct i as [|i];
        [cbn [nth];
         match goal with |- derivable_pt_lim _ _ ?l => replace l with 0 by field end;
         apply (derivable_pt_lim_const 0) |]).
  destruct i as [|i]; [| destruct i as [|i]; [| lia]]; cbn [nth].
  - replace ((1 - 0) * 0 / 1 - (1 - 0) * exp (- s) / 1 - 0 * exp (- s) / 1)
      with (- exp (- s)) by field.
    apply exp_opp_derivative.
  - replace (0 / 1 + (1 - 0) * exp (- s) / 1) with (0 - - exp (- s)) by field.
    apply (derivable_pt_lim_minus (fct_cte 1) (fun u => exp (- u))).
    + apply derivable_pt_lim_const.
    + apply exp_opp_derivative.
Qed.

Lemma dying_solves : solves dying_only dying.
Proof.
  intros s. exists (rhs dying_only (dying s)).
  split; [apply SEIR_args_defined; [exact dying_only_defined | reflexivity] |].
  intros i Hi. unfold component, dying, rhs, SEIR_rhs, dying_only.
  cbn [betaP betaA betaS tauE tauP tauI tauD f d N].
  do 4 (destruct i as [|i];
        [cbn [nth];
         match goal with |- derivable_pt_lim _ _ ?l => replace l with 0 by field end;
         apply (derivable_pt_lim_const 0) |]).
  destruct i as [|i]; [| destruct i as [|i]; [| lia]]; cbn [nth].
  - replace ((1 - 0) * 0 / 1 - (1 - 1) * exp (- s) / 1 - 1 * exp (- s) / 1)
      with (- exp (- s)) by field.
    apply exp_opp_derivative.
  - replace (0 / 1 + (1 - 1) * exp (- s) / 1) with 0 by field.
    apply (derivable_pt_lim_const 0).
Qed.

(** * The claims about the derivative function *)

(** C3.  For every state [(S, E, Ip, Ia, Is, R)] and every parameter set on
    which the divisions are defined (no duration and no population size is
    zero), [SEIR] returns, and returns exactly the six right-hand sides of
    the specification. *)
Theorem SEIR_returns_specified_rhs
    S E Ip Ia Is Rc t betaP betaA betaS tauE tauP tauI tauD f d N :
  divisors_nonzero tauE tauP tauI tauD N ->
  SEIR [S; E; Ip; Ia; Is; Rc] t betaP betaA betaS tauE tauP tauI tauD f d N
  = Ok [ - (S / N) * (betaP * Ip + betaA * Ia + betaS * Is);
         (S / N) * (betaP * Ip + betaA * Ia + betaS * Is) - E / tauE;
         E / tauE - Ip / tauP;
         f * Ip / tauP - Ia / tauI;
         (1 - f) * Ip / tauP - (1 - d) * Is / tauI - d * Is / tauD;
         Ia / tauI + (1 - d) * Is / tauI ].
Proof.
  intros (HN & HE & HP & HI & HD).
  py_unfold. split_divisions.
  list_eq; field; auto.
Qed.

Lemma SEIR_returns_specified_rhs_witness :
  SEIR [4.9 * 10 ^ 6; 1; 0; 0; 0; 0] 0 0.8 0.8 0.8 3.5 1.5 3.5 14 0.3 0.05 (4.9 * 10 ^ 6)
  = Ok [ - (4.9 * 10 ^ 6 / (4.9 * 10 ^ 6)) * (0.8 * 0 + 0.8 * 0 + 0.8 * 0);
         (4.9 * 10 ^ 6 / (4.9 * 10 ^ 6)) * (0.8 * 0 + 0.8 * 0 + 0.8 * 0) - 1 / 3.5;
         1 / 3.5 - 0 / 1.5;
         0.3 * 0 / 1.5 - 0 / 3.5;
         (1 - 0.3) * 0 / 1.5 - (1 - 0.05) * 0 / 3.5 - 0.05 * 0 / 14;
         0 / 3.5 + (1 - 0.05) * 0 / 3.5 ].
Proof.
  apply SEIR_returns_specified_rhs.
  unfold divisors_nonzero. repeat split; lra.
Defined.

(** C1, as the specification states it, fails: at the notebook's parameters
    and the state [(4899986, 0, 0, 0, 14, 0)], whose components sum to [N],
    the six derivatives sum to [-1/20]. *)
Lemma SEIR_sum_not_zero :
  total [4899986; 0; 0; 0; 14; 0] = N notebook /\
  exists dydt,
    SEIR_args notebook [4899986; 0; 0; 0; 14; 0] 0 = Ok dydt /\
    total dydt = - (1 / 20) /\ total dydt <> 0.
Proof.
  split; [unfold total, notebook; cbn; lra |].
  exists (rhs notebook [4899986; 0; 0; 0; 14; 0]). split.
  - apply SEIR_args_defined; [exact notebook_defined | reflexivity].
  - rewrite total_rhs by exact notebook_defined.
    unfold notebook; cbn. split; lra.
Qed.

(** C1, amended.  Whenever [SEIR] returns, the six derivatives sum to
    [-(d/tauD) * Is], the outflow of the dying, which [dR/dt] does not
    receive; the sum is zero exactly when [d = 0] or [Is = 0].  Along every
    trajectory of the model the total [S+E+Ip+Ia+Is+R] therefore has the
    derivative [-(d/tauD) * Is(t)]; and over an interval on which the model
    is solved with [d > 0], [tauD > 0] and [Is > 0] the total is smaller at
    the end than at the start: it is not held at [N]. *)
Theorem SEIR_sum_is_death_outflow (p : params) :
  (forall y t dydt,
     SEIR_args p y t = Ok dydt ->
     total dydt = - (d p / tauD p) * nth 4 y 0 /\
     (total dydt = 0 <-> d p = 0 \/ nth 4 y 0 = 0)) /\
  (forall y,
     solves p y ->
     forall s, derivable_pt_lim (fun u => total (y u)) s
                                (- (d p / tauD p) * component 4 y s)) /\
  (forall y a b,
     a < b -> solves_on p y a b ->
     0 < d p -> 0 < tauD p ->
     (forall s, a <= s <= b -> 0 < component 4 y s) ->
     total (y b) < total (y a)).
Proof.
  split; [| split].
  - intros y t dydt H.
    apply SEIR_args_Ok_inv in H. destruct H as (_ & Hp & ->).
    rewrite total_rhs by exact Hp.
    split; [reflexivity |].
    destruct Hp as (_ & _ & _ & _ & HD).
    split.
    + intros H0.
      assert (Hprod : d p * nth 4 y 0 = 0).
      { replace (d p * nth 4 y 0) with (- tauD p * (- (d p / tauD p) * nth 4 y 0))
          by (field; exact HD).
        rewrite H0. ring. }
      apply Rmult_integral in Hprod. exact Hprod.
    + intros [H0 | H0]; rewrite H0; field; exact HD.
  - intros y Hy s.
    destruct (solves_inv p y Hy s) as (_ & Hp & _).
    unfold component. rewrite <- (total_rhs p (y s) Hp).
    now apply total_derivative.
  - intros y a b Hab Hy Hd HD Hpos.
    apply (decreasing_on (fun u => total (y u))
                         (fun u => - (d p / tauD p) * component 4 y u) a b Hab).
    + intros c Hc.
      destruct (solves_on_inv p y a b Hy c Hc) as (Hp & _).
      unfold component. rewrite <- (total_rhs p (y c) Hp).
      now apply (total_derivative_on p y a b).
    + intros c Hc. specialize (Hpos c Hc).
      assert (0 < d p / tauD p) by now apply Rdiv_lt_0_compat.
      assert (0 < d p / tauD p * component 4 y c) by now apply Rmult_lt_0_compat.
      lra.
Qed.

Lemma SEIR_sum_is_death_outflow_witness :
  total (rhs notebook [4899986; 0; 0; 0; 14; 0]) = - (0.05 / 14) * 14 /\
  derivable_pt_lim (fun u => total [4.9 * 10 ^ 6; 0; 0; 0; 0; 0]) 0
                   (- (0.05 / 14) * 0) /\
  total (dying 1) < total (dying 0).
Proof.
  split; [| split].
  - apply (proj1 (SEIR_sum_is_death_outflow notebook)
                 [4899986; 0; 0; 0; 14; 0] 0).
    apply SEIR_args_defined; [exact notebook_defined | reflexivity].
  - apply (proj1 (proj2 (SEIR_sum_is_death_outflow notebook))
                 (fun _ => [4.9 * 10 ^ 6; 0; 0; 0; 0; 0])).
    apply constant_solves;
      [exact notebook_defined | reflexivity
      | apply rhs_disease_free; exact notebook_defined].
  - apply (proj2 (proj2 (SEIR_sum_is_death_outflow dying_only)) dying 0 1).
    + lra.
    + apply solves_on_of_solves. exact dying_solves.
    + cbn [d dying_only]. lra.
    + cbn [tauD dying_only]. lra.
    + intros s _. unfold component, dying; cbn [nth]. apply exp_pos.
Defined.

(** C6.  At a state with [E = Ip = Ia = Is = 0], whatever [S] and [R] are,
    [SEIR] returns the zero vector on every parameter set on which it is
    defined; the trajectory that stays at that state solves the model, and
    the explicit Euler solver returns that state at every requested time. *)
Theorem SEIR_disease_free_fixed_point (p : params) (S Rc : R) :
  defined p ->
  (forall t, SEIR_args p [S; 0; 0; 0; 0; Rc] t = Ok [0; 0; 0; 0; 0; 0]) /\
  solves p (fun _ => [S; 0; 0; 0; 0; Rc]) /\
  (forall ts, sol euler p [S; 0; 0; 0; 0; Rc] ts
              = Ok (map (fun _ => [S; 0; 0; 0; 0; Rc]) ts)).
Proof.
  intros Hp.
  assert (Hcall : forall t, SEIR_args p [S; 0; 0; 0; 0; Rc] t = Ok [0; 0; 0; 0; 0; 0]).
  { intros t. now apply SEIR_args_disease_free. }
  split; [exact Hcall | split].
  - apply constant_solves; [exact Hp | reflexivity | now apply rhs_disease_free].
  - intros [|t0 ts]; [reflexivity|].
    unfold sol, euler. rewrite euler_steps_fixed by (reflexivity || exact Hcall).
    reflexivity.
Qed.

Lemma SEIR_disease_free_fixed_point_witness :
  SEIR_args notebook [4.9 * 10 ^ 6; 0; 0; 0; 0; 0] 0 = Ok [0; 0; 0; 0; 0; 0] /\
  sol euler notebook [4.9 * 10 ^ 6; 0; 0; 0; 0; 0] [0; 1; 2]
  = Ok [[4.9 * 10 ^ 6; 0; 0; 0; 0; 0];
        [4.9 * 10 ^ 6; 0; 0; 0; 0; 0];
        [4.9 * 10 ^ 6; 0; 0; 0; 0; 0]].
Proof.
  destruct (SEIR_disease_free_fixed_point notebook (4.9 * 10 ^ 6) 0 notebook_defined)
    as (Hcall & _ & Hrun).
  split; [apply Hcall | apply (Hrun [0; 1; 2])].
Defined.

Lemma removed_rate_nonneg p y :
  0 < tauI p -> 0 <= d p <= 1 -> 0 <= nth 3 y 0 -> 0 <= nth 4 y 0 ->
  0 <= nth 5 (rhs p y) 0.
Proof.
  intros HI [Hd0 Hd1] Ha Hs.
  unfold rhs, SEIR_rhs; cbn [nth].
  assert (Hinv : 0 < / tauI p) by now apply Rinv_0_lt_compat.
  unfold Rdiv.
  apply Rplus_le_le_0_compat.
  - apply Rmult_le_pos; lra.
  - apply Rmult_le_pos; [apply Rmult_le_pos |]; lra.
Qed.

(** C7.  With [tauI > 0] and [0 <= d <= 1], at every state with [Ia >= 0]
    and [Is >= 0] the sixth derivative that [SEIR] returns is non-negative;
    hence along every trajectory of the model on which [Ia] and [Is] stay
    non-negative the removed compartment never decreases, and the same over
    an interval on which the model is solved and [Ia], [Is] are not
    negative, whatever they are outside it. *)
Theorem SEIR_removed_nondecreasing (p : params) :
  0 < tauI p -> 0 <= d p <= 1 ->
  (forall y t dydt,
     0 <= nth 3 y 0 -> 0 <= nth 4 y 0 ->
     SEIR_args p y t = Ok dydt ->
     0 <= nth 5 dydt 0) /\
  (forall y,
     solves p y ->
     (forall s, 0 <= component 3 y s /\ 0 <= component 4 y s) ->
     forall a b, a <= b -> component 5 y a <= component 5 y b) /\
  (forall y a b,
     solves_on p y a b ->
     (forall s, a <= s <= b -> 0 <= component 3 y s /\ 0 <= component 4 y s) ->
     forall x z, a <= x -> x <= z -> z <= b ->
       component 5 y x <= component 5 y z).
Proof.
  intros HI Hd. split; [| split].
  - intros y t dydt Ha Hs H.
    apply SEIR_args_Ok_inv in H. destruct H as (_ & _ & ->).
    now apply removed_rate_nonneg.
  - intros y Hy Hpos.
    pose proof (solves_inv p y Hy) as Hinv.
    assert (pr : derivable (component 5 y)).
    { intros x. exists (nth 5 (rhs p (y x)) 0).
      destruct (Hinv x) as (_ & _ & Hder). apply Hder. lia. }
    assert (Hval : forall x, derive_pt (component 5 y) x (pr x) = nth 5 (rhs p (y x)) 0).
    { intros x. apply derive_pt_eq_0.
      destruct (Hinv x) as (_ & _ & Hder). apply Hder. lia. }
    apply (nonneg_derivative_1 (component 5 y) pr).
    intros x. rewrite Hval.
    destruct (Hpos x). now apply removed_rate_nonneg.
  - intros y a b Hy Hpos.
    apply (nondecreasing_on (component 5 y) (fun u => nth 5 (rhs p (y u)) 0) a b).
    + intros c Hc. destruct (solves_on_inv p y a b Hy c Hc) as (_ & Hder).
      apply Hder. lia.
    + intros c Hc. destruct (Hpos c Hc). now apply removed_rate_nonneg.
Qed.

Lemma SEIR_removed_nondecreasing_witness :
  0 <= nth 5 (rhs notebook [4899986; 0; 0; 0; 14; 0]) 0 /\
  component 5 (fun _ => [4.9 * 10 ^ 6; 0; 0; 0; 0; 0]) 0
  <= component 5 (fun _ => [4.9 * 10 ^ 6; 0; 0; 0; 0; 0]) 70 /\
  component 5 recovering 0 <= component 5 recovering 70.
Proof.
  assert (HI : 0 < tauI notebook) by (cbn; lra).
  assert (Hd : 0 <= d notebook <= 1) by (cbn; lra).
  destruct (SEIR_removed_nondecreasing notebook HI Hd) as (Hpoint & Hrun & _).
  split; [| split].
  - apply (Hpoint [4899986; 0; 0; 0; 14; 0] 0); cbn [nth]; try lra.
    apply SEIR_args_defined; [exact notebook_defined | reflexivity].
  - apply (Hrun (fun _ => [4.9 * 10 ^ 6; 0; 0; 0; 0; 0])).
    + apply constant_solves;
        [exact notebook_defined | reflexivity
        | apply rhs_disease_free; exact notebook_defined].
    + intros s. unfold component; cbn [nth]. lra.
    + lra.
  - assert (HI' : 0 < tauI recovery_only) by (cbn; lra).
    assert (Hd' : 0 <= d recovery_only <= 1) by (cbn; lra).
    apply (proj2 (proj2 (SEIR_removed_nondecreasing recovery_only HI' Hd'))
                 recovering 0 70).
    + apply solves_on_of_solves. exact recovering_solves.
    + intros s _. unfold component, recovering; cbn [nth].
      split; [lra | left; apply exp_pos].
    + lra.
    + lra.
    + lra.
Defined.

(** * The reproduction number *)

(** ** [la_inv] is the inverse *)

Section Inverse4.
Variables a11 a12 a13 a14 a21 a22 a23 a24 a31 a32 a33 a34 a41 a42 a43 a44 : R.

Local Notation "'A'" :=
  [[a11; a12; a13; a14]; [a21; a22; a23; a24];
   [a31; a32; a33; a34]; [a41; a42; a43; a44]] (only parsing).

Lemma la_inv_4 :
  det 4 A <> 0 ->
  exists B, la_inv A = Ok B /\
            np_matmul A B = Ok (identity 4) /\
            np_matmul B A = Ok (identity 4).
Proof.
  intros NE. unfold la_inv. simpl is_square. cbv iota.
  destruct (Req_dec_T (det (length A) A) 0) as [E0 | _]; [contradiction |].
  eexists; split; [reflexivity |].
  mat_unfold. revert NE. mat_unfold. simpl pow. intros NE.
  match type of NE with ?D <> 0 => set (DD := D) in * end.
  split; list_eq; (field_simplify_eq; [subst DD; ring | exact NE]).
Qed.

Lemma la_inv_4_singular : det 4 A = 0 -> la_inv A = Err SingularMatrix.
Proof.
  intros E0. unfold la_inv. simpl is_square. cbv iota.
  destruct (Req_dec_T (det (length A) A) 0) as [_ | NE];
    [reflexivity | contradiction].
Qed.
End Inverse4.

(** ** The arrays of the notebook *)

Lemma positive_nonzero p : durations_positive p -> durations_nonzero p.
Proof.
  intros (HE & HP & HI & HD). unfold durations_nonzero.
  repeat split; apply Rgt_not_eq; assumption.
Qed.

Lemma removal_rate_pos p :
  durations_positive p -> fraction (d p) -> 0 < removal_rate p.
Proof.
  intros (_ & _ & HI & HD) [Hd0 Hd1]. unfold removal_rate, Rdiv.
  pose proof (Rinv_0_lt_compat _ HI) as HiI.
  pose proof (Rinv_0_lt_compat _ HD) as HiD.
  destruct (Rle_lt_or_eq_dec _ _ Hd0) as [Hpos | Hzero].
  - apply Rplus_le_lt_0_compat; [apply Rmult_le_pos | apply Rmult_lt_0_compat]; lra.
  - rewrite <- Hzero. lra.
Qed.

Lemma V_value p : durations_nonzero p -> V p = Ok (V_matrix p).
Proof.
  destruct p as [bP bA bS tE tP tI tD f0 d0 N0].
  unfold durations_nonzero, V, V_matrix, removal_rate; cbn [tauE tauP tauI tauD f d].
  intros (HE & HP & HI & HD).
  mat_unfold. split_divisions.
  list_eq; try reflexivity; try (field; auto).
Qed.

Lemma V_raises p : ~ durations_nonzero p -> V p = Err ZeroDivisionError.
Proof.
  destruct p as [bP bA bS tE tP tI tD f0 d0 N0].
  unfold durations_nonzero, V; cbn [tauE tauP tauI tauD f d].
  intros Hnot. mat_unfold. split_divisions; try reflexivity.
  exfalso. apply Hnot. auto.
Qed.

Lemma F_value p : F p = Ok (F_matrix p).
Proof. destruct p. reflexivity. Qed.

Lemma det_V p :
  det 4 (V_matrix p) = (1 / tauE p) * (1 / tauP p) * (1 / tauI p) * removal_rate p.
Proof. unfold V_matrix. mat_unfold. simpl pow. ring. Qed.

Lemma det_V_nonzero p :
  durations_nonzero p -> removal_rate p <> 0 -> det 4 (V_matrix p) <> 0.
Proof.
  intros (HE & HP & HI & HD) Hr.
  rewrite det_V. unfold Rdiv. rewrite !Rmult_1_l.
  repeat apply Rmult_integral_contrapositive_currified;
    try apply Rinv_neq_0_compat; assumption.
Qed.

Lemma la_inv_V p :
  durations_nonzero p -> removal_rate p <> 0 ->
  la_inv (V_matrix p) = Ok (V_inverse p).
Proof.
  intros Hnz Hr.
  pose proof (det_V_nonzero p Hnz Hr) as Hdet.
  destruct Hnz as (HE & HP & HI & HD).
  unfold la_inv. change (length (V_matrix p)) with 4%nat.
  change (is_square (V_matrix p)) with true. cbv iota.
  destruct (Req_dec_T (det 4 (V_matrix p)) 0) as [E0 | _]; [contradiction |].
  rewrite det_V. unfold V_matrix, V_inverse.
  set (r := removal_rate p) in *.
  mat_unfold. simpl pow.
  list_eq; field; auto.
Qed.

Lemma matmul_F_V_inverse p :
  removal_rate p <> 0 ->
  np_matmul (F_matrix p) (V_inverse p) = Ok (G_matrix p).
Proof.
  intros Hr. unfold F_matrix, V_inverse, G_matrix, R_0_closed.
  fold (removal_rate p). set (r := removal_rate p) in *.
  mat_unfold. list_eq; field; exact Hr.
Qed.

Lemma G_value p :
  durations_nonzero p -> removal_rate p <> 0 -> G p = Ok (G_matrix p).
Proof.
  intros Hnz Hr. unfold G.
  rewrite V_value by exact Hnz. rewrite F_value. cbn [bind].
  rewrite la_inv_V by assumption. cbn [bind].
  now apply matmul_F_V_inverse.
Qed.

(** ** Eigenvalues of a matrix whose only nonzero row is the first *)

Section FirstRow.
Variables g0 g1 g2 g3 : R.

Local Notation "'A'" :=
  [[g0; g1; g2; g3]; [0; 0; 0; 0]; [0; 0; 0; 0]; [0; 0; 0; 0]] (only parsing).

Lemma charpoly_first_row x : charpoly A x = (x - g0) * (x * (x * x)).
Proof. mat_unfold. simpl pow. ring. Qed.

(** The list of eigenvalues is [g0, 0, 0, 0] in some order. *)
Lemma eigenvalues_first_row w :
  eigenvalues A w -> Permutation w [g0; 0; 0; 0].
Proof.
  intros [Hlen Hpoly].
  destruct w as [|a [|b [|c [|e [|? ?]]]]]; try discriminate Hlen.
  assert (H : forall x, (x - g0) * (x * (x * x))
                        = (x - a) * ((x - b) * ((x - c) * ((x - e) * 1)))).
  { intros x. rewrite <- charpoly_first_row. apply Hpoly. }
  clear Hpoly Hlen.
  assert (Hsum : a + b + c + e = g0).
  { pose proof (H 0) as H0. pose proof (H 1) as H1. pose proof (H (-1)) as H2.
    pose proof (H 2) as H3. pose proof (H (-2)) as H4. nra. }
  assert (Hroot : forall z, (z - a) * ((z - b) * ((z - c) * ((z - e) * 1))) = 0
                            -> z = g0 \/ z = 0).
  { intros z Hz. rewrite <- H in Hz.
    apply Rmult_integral in Hz. destruct Hz as [Hz | Hz]; [left; lra |].
    apply Rmult_integral in Hz. destruct Hz as [Hz | Hz]; [now right |].
    apply Rmult_integral in Hz. destruct Hz as [Hz | Hz]; now right. }
  assert (Ha : a = g0 \/ a = 0) by (apply Hroot; ring).
  assert (Hb : b = g0 \/ b = 0) by (apply Hroot; ring).
  assert (Hc : c = g0 \/ c = 0) by (apply Hroot; ring).
  assert (He : e = g0 \/ e = 0) by (apply Hroot; ring).
  clear H Hroot.
  assert (Hzero : g0 = 0 -> Permutation [a; b; c; e] [g0; 0; 0; 0]).
  { intros Hg. replace a with 0 by (destruct Ha; lra).
    replace b with 0 by (destruct Hb; lra).
    replace c with 0 by (destruct Hc; lra).
    replace e with 0 by (destruct He; lra).
    rewrite Hg. apply Permutation_refl. }
  destruct Ha as [-> | ->], Hb as [-> | ->], Hc as [-> | ->], He as [-> | ->];
    try (apply Hzero; lra).
  - apply Permutation_refl.
  - apply perm_swap.
  - eapply perm_trans; [apply perm_skip, perm_swap | apply perm_swap].
  - eapply perm_trans; [apply perm_skip, perm_skip, perm_swap |].
    eapply perm_trans; [apply perm_skip, perm_swap | apply perm_swap].
Qed.

Lemma eigenvalues_first_row_exist : eigenvalues A [g0; 0; 0; 0].
Proof.
  split; [reflexivity |]. intros x. rewrite charpoly_first_row.
  cbn [fold_right]. ring.
Qed.

(** When the first two entries of the row agree, as in [G], there are
    eigenvectors for all four eigenvalues. *)
Lemma la_eig_first_row :
  g1 = g0 ->
  la_eig A ([g0; 0; 0; 0],
            [[1; 1; 1; 1]; [0; -1; -1; -1]; [0; 0; 0; 0]; [0; 0; 0; 0]]).
Proof.
  intros Hg. split; [exact eigenvalues_first_row_exist |].
  split; [reflexivity |].
  intros i Hi. cbn [length] in Hi.
  do 4 (destruct i as [|i];
        [split; [reflexivity |];
         split; [exists 0%nat; cbn; lra |];
         mat_unfold; list_eq; rewrite ?Hg; ring |]).
  lia.
Qed.
End FirstRow.

(** ** [np.max] *)

Lemma fold_left_Rmax_spec xs : forall x,
  (fold_left Rmax xs x = x \/ In (fold_left Rmax xs x) xs) /\
  x <= fold_left Rmax xs x /\
  (forall z, In z xs -> z <= fold_left Rmax xs x).
Proof.
  induction xs as [|y xs IH]; intros x; cbn [fold_left].
  - split; [now left | split; [apply Rle_refl | intros z []]].
  - destruct (IH (Rmax x y)) as (Hin & Hge & Hall).
    split; [| split].
    + destruct Hin as [Heq | Hin]; [| right; now right].
      rewrite Heq. unfold Rmax. destruct (Rle_dec x y); [right; now left | now left].
    + eapply Rle_trans; [apply Rmax_l | exact Hge].
    + intros z [<- | Hz]; [| now apply Hall].
      eapply Rle_trans; [apply Rmax_r | exact Hge].
Qed.

(** [np.max] of a tuple that holds one non-empty array returns an element of
    the array that no element exceeds. *)
Lemma np_max_spec w r :
  np_max [w] = Ok r <-> In r w /\ forall z, In z w -> z <= r.
Proof.
  unfold np_max. cbn [concat]. rewrite app_nil_r.
  destruct w as [|x xs].
  - split; [discriminate | intros [[] _]].
  - destruct (fold_left_Rmax_spec xs x) as (Hin & Hge & Hall).
    split.
    + intros H. inversion H; subst r. split.
      * destruct Hin as [-> | Hin]; [now left | now right].
      * intros z [<- | Hz]; [exact Hge | now apply Hall].
    + intros [Hr Hmax]. f_equal. apply Rle_antisym.
      * apply Hmax. destruct Hin as [-> | Hin]; [now left | now right].
      * destruct Hr as [<- | Hr]; [exact Hge | now apply Hall].
Qed.

Lemma np_max_nonempty w : w <> [] -> exists r, np_max [w] = Ok r.
Proof.
  unfold np_max. cbn [concat]. rewrite app_nil_r.
  destruct w as [|x xs]; [congruence | eauto].
Qed.

(** The maximum does not depend on the order of the array. *)
Lemma np_max_permutation w w' r :
  Permutation w w' -> np_max [w] = Ok r -> np_max [w'] = Ok r.
Proof.
  intros Hp H. apply np_max_spec in H. destruct H as [Hin Hmax].
  apply np_max_spec. split.
  - now apply (Permutation_in _ Hp).
  - intros z Hz. apply Hmax. now apply (Permutation_in _ (Permutation_sym Hp)).
Qed.

Lemma np_max_first_row g0 w :
  Permutation w [g0; 0; 0; 0] -> np_max [w] = Ok (Rmax 0 g0).
Proof.
  intros Hp. apply np_max_permutation with (w := [g0; 0; 0; 0]);
    [now apply Permutation_sym |].
  apply np_max_spec. split.
  - unfold Rmax. destruct (Rle_dec 0 g0); cbn; auto.
  - intros z Hz. cbn in Hz.
    destruct Hz as [<- | [<- | [<- | [<- | []]]]];
      (apply Rmax_r || apply Rmax_l).
Qed.

(** ** The cell [R_0] *)

Lemma eigenvalue_is_root a w r :
  eigenvalues a w -> In r w -> charpoly a r = 0.
Proof.
  intros [_ Hpoly] Hin. rewrite Hpoly. clear Hpoly.
  induction w as [|wi w IH]; [destruct Hin |].
  cbn [fold_right]. destruct Hin as [-> | Hin].
  - ring.
  - rewrite (IH Hin). ring.
Qed.

Lemma la_eig_G p wv :
  la_eig (G_matrix p) wv -> Permutation (fst wv) [R_0_closed p; 0; 0; 0].
Proof. intros [Hw _]. now apply eigenvalues_first_row in Hw. Qed.

Lemma la_eig_G_exists p : exists wv, la_eig (G_matrix p) wv.
Proof. eexists. now apply la_eig_first_row. Qed.

(** The cell evaluates to the larger of [0] and the closed form, whatever
    pair [la.eig] returns. *)
Lemma R_0_value p :
  durations_nonzero p -> removal_rate p <> 0 ->
  forall res, R_0 p res <-> res = Ok (Rmax 0 (R_0_closed p)).
Proof.
  intros Hnz Hr res. unfold R_0. rewrite G_value by assumption.
  split.
  - intros (wv & Heig & ->). unfold tuple_slice1.
    apply np_max_first_row. now apply la_eig_G.
  - intros ->. destruct (la_eig_G_exists p) as [wv Heig].
    exists wv. split; [exact Heig |]. unfold tuple_slice1.
    symmetry. apply np_max_first_row. now apply la_eig_G.
Qed.

Lemma R_0_closed_nonneg p :
  durations_positive p -> fraction (d p) -> fraction (f p) ->
  0 <= betaP p -> 0 <= betaA p -> 0 <= R_0_closed p.
Proof.
  intros Hpos Hd [Hf0 Hf1] HbP HbA.
  pose proof (removal_rate_pos p Hpos Hd) as Hr.
  destruct Hpos as (_ & HP & HI & _).
  unfold R_0_closed. fold (removal_rate p). unfold Rdiv.
  pose proof (Rinv_0_lt_compat _ Hr) as Hir.
  repeat apply Rplus_le_le_0_compat; repeat apply Rmult_le_pos; lra.
Qed.

Lemma R_0_closed_notebook : R_0_closed notebook = 1121 / 275.
Proof.
  unfold R_0_closed, notebook;
    cbn [betaP betaA betaS tauE tauP tauI tauD f d N].
  lra.
Qed.

Lemma notebook_positive : durations_positive notebook.
Proof. unfold durations_positive, notebook; cbn. repeat split; lra. Qed.

Lemma notebook_d_fraction : fraction (d notebook).
Proof. unfold fraction, notebook; cbn. lra. Qed.

Lemma notebook_f_fraction : fraction (f notebook).
Proof. unfold fraction, notebook; cbn. lra. Qed.

(** * The claims about the reproduction number *)

(** C2.  With the notebook's parameters the cell [R_0] evaluates, and every
    value it can evaluate to is [1121/275 = 4.07636...], which is within
    [0.01] of [4.076]. *)
Theorem R_0_notebook_value :
  (exists r, R_0 notebook (Ok r)) /\
  forall res, R_0 notebook res ->
    exists r, res = Ok r /\ r = 1121 / 275 /\ Rabs (r - 4.076) < 0.01.
Proof.
  pose proof (positive_nonzero _ notebook_positive) as Hnz.
  pose proof (removal_rate_pos _ notebook_positive notebook_d_fraction) as Hr.
  apply Rgt_not_eq in Hr.
  assert (Hmax : Rmax 0 (R_0_closed notebook) = 1121 / 275).
  { rewrite R_0_closed_notebook. apply Rmax_right. lra. }
  split.
  - exists (1121 / 275). apply (R_0_value notebook Hnz Hr). now rewrite Hmax.
  - intros res Hres. apply (R_0_value notebook Hnz Hr) in Hres.
    rewrite Hmax in Hres. exists (1121 / 275).
    split; [exact Hres | split; [reflexivity |]].
    apply Rabs_def1; lra.
Qed.

Lemma charpoly_G_root p z : charpoly (G_matrix p) z = 0 -> z = R_0_closed p \/ z = 0.
Proof.
  unfold G_matrix. rewrite charpoly_first_row. intros H.
  apply Rmult_integral in H. destruct H as [H | H]; [left; lra |].
  apply Rmult_integral in H. destruct H as [H | H]; [now right |].
  apply Rmult_integral in H. destruct H as [H | H]; now right.
Qed.

(** C4.  For positive durations and a fatality fraction in the unit
    interval, the cell [R_0] evaluates, and what it evaluates to is the
    largest eigenvalue of [G = F V^-1]: [F] and [V] evaluate to the arrays
    of the notebook, [la.inv] returns the two-sided inverse of [V], [G] is
    the product of [F] with that inverse, and the value of the cell is an
    element of the eigenvalue array that [la.eig] returned for this [G], no
    element of that array exceeds it, whatever the order of the array, it is
    a root of the characteristic polynomial of [G] and no root exceeds it,
    and it is non-negative. *)
Theorem R_0_is_largest_eigenvalue (p : params) :
  durations_positive p -> fraction (d p) ->
  (exists r, R_0 p (Ok r)) /\
  forall res, R_0 p res ->
    exists r fm v vinv g wv,
      res = Ok r /\
      F p = Ok fm /\
      fm = [[0; betaP p; betaA p; betaA p];
            [0; 0; 0; 0]; [0; 0; 0; 0]; [0; 0; 0; 0]] /\
      V p = Ok v /\
      v = [[1 / tauE p; 0; 0; 0];
           [-1 / tauE p; 1 / tauP p; 0; 0];
           [0; - f p / tauP p; 1 / tauI p; 0];
           [0; - (1 - f p) / tauP p; 0; (1 - d p) / tauI p + d p / tauD p]] /\
      la_inv v = Ok vinv /\
      np_matmul v vinv = Ok (identity 4) /\
      np_matmul vinv v = Ok (identity 4) /\
      np_matmul fm vinv = Ok g /\
      G p = Ok g /\
      la_eig g wv /\
      In r (fst wv) /\ (forall z, In z (fst wv) -> z <= r) /\
      (forall w', Permutation (fst wv) w' -> np_max [w'] = Ok r) /\
      charpoly g r = 0 /\ (forall z, charpoly g z = 0 -> z <= r) /\
      0 <= r.
Proof.
  intros Hpos Hd.
  pose proof (positive_nonzero _ Hpos) as Hnz.
  pose proof (removal_rate_pos _ Hpos Hd) as Hr. apply Rgt_not_eq in Hr.
  split.
  - exists (Rmax 0 (R_0_closed p)). now apply R_0_value.
  - intros res Hres.
    pose proof (proj1 (R_0_value p Hnz Hr res) Hres) as Hval.
    unfold R_0 in Hres. rewrite G_value in Hres by assumption.
    destruct Hres as (wv & Heig & Hmax).
    assert (Hinv : exists B, la_inv (V_matrix p) = Ok B /\
                             np_matmul (V_matrix p) B = Ok (identity 4) /\
                             np_matmul B (V_matrix p) = Ok (identity 4))
      by (apply la_inv_4; now apply det_V_nonzero).
    destruct Hinv as (B & HB & Hright & Hleft).
    rewrite la_inv_V in HB by assumption.
    inversion HB; subst B.
    exists (Rmax 0 (R_0_closed p)), (F_matrix p), (V_matrix p), (V_inverse p),
           (G_matrix p), wv.
    rewrite Hval in Hmax. symmetry in Hmax. unfold tuple_slice1 in Hmax.
    pose proof (proj1 (np_max_spec _ _) Hmax) as [Hin Hle].
    split; [exact Hval |].
    split; [apply F_value |].
    split; [reflexivity |].
    split; [now apply V_value |].
    split; [reflexivity |].
    split; [now apply la_inv_V |].
    split; [exact Hright |].
    split; [exact Hleft |].
    split; [now apply matmul_F_V_inverse |].
    split; [now apply G_value |].
    split; [exact Heig |].
    split; [exact Hin |].
    split; [exact Hle |].
    split; [| split; [| split]].
    + intros w' Hperm. now apply (np_max_permutation (fst wv)).
    + destruct Heig as [Hw _]. now apply (eigenvalue_is_root _ (fst wv)).
    + intros z Hz. apply charpoly_G_root in Hz.
      destruct Hz as [-> | ->]; [apply Rmax_r | apply Rmax_l].
    + apply Rmax_l.
Qed.

Lemma R_0_is_largest_eigenvalue_witness :
  exists r fm vinv g wv,
    R_0 notebook (Ok r) /\
    F notebook = Ok fm /\
    la_inv (V_matrix notebook) = Ok vinv /\
    np_matmul fm vinv = Ok g /\
    G notebook = Ok g /\
    la_eig g wv /\ In r (fst wv) /\ (forall z, In z (fst wv) -> z <= r) /\
    0 <= r.
Proof.
  destruct (R_0_is_largest_eigenvalue notebook notebook_positive
                                      notebook_d_fraction) as [[r0 Hr0] Hall].
  destruct (Hall _ Hr0)
    as (r & fm & v & vinv & g & wv & Heq & HF & _ & _ & Hv & Hinv & _ & _
        & Hmul & HG & Heig & Hin & Hle & _ & _ & _ & Hpos).
  exists r, fm, vinv, g, wv.
  inversion Heq; subst r0. subst v.
  split; [exact Hr0 |].
  split; [exact HF |].
  split; [exact Hinv |].
  split; [exact Hmul |].
  split; [exact HG |].
  split; [exact Heig |].
  split; [exact Hin |].
  split; [exact Hle | exact Hpos].
Defined.

(** C9.  For positive durations and a fatality fraction in the unit
    interval, [V] evaluates to an array whose determinant is
    [(1/tauE) * (1/tauP) * (1/tauI) * ((1-d)/tauI + d/tauD)] and is not
    zero; [la.inv] returns its inverse, and [G] evaluates: the
    [LinAlgError] of a singular matrix is not raised. *)
Theorem V_is_invertible (p : params) :
  durations_positive p -> fraction (d p) ->
  exists v,
    V p = Ok v /\
    det 4 v = (1 / tauE p) * (1 / tauP p) * (1 / tauI p)
              * ((1 - d p) / tauI p + d p / tauD p) /\
    det 4 v <> 0 /\
    (exists vinv, la_inv v = Ok vinv /\
                  np_matmul v vinv = Ok (identity 4) /\
                  np_matmul vinv v = Ok (identity 4)) /\
    (exists g, G p = Ok g) /\
    G p <> Err SingularMatrix.
Proof.
  intros Hpos Hd.
  pose proof (positive_nonzero _ Hpos) as Hnz.
  pose proof (removal_rate_pos _ Hpos Hd) as Hr. apply Rgt_not_eq in Hr.
  exists (V_matrix p).
  split; [now apply V_value |].
  split; [apply det_V |].
  split; [now apply det_V_nonzero |].
  split; [apply la_inv_4; now apply det_V_nonzero |].
  rewrite G_value by assumption.
  split; [now exists (G_matrix p) | discriminate].
Qed.

Lemma V_is_invertible_witness :
  exists v, V notebook = Ok v /\ det 4 v <> 0 /\ G notebook <> Err SingularMatrix.
Proof.
  destruct (V_is_invertible notebook notebook_positive notebook_d_fraction)
    as (v & Hv & _ & Hdet & _ & _ & HG).
  exists v. auto.
Defined.

(** Outside that precondition the error is raised: with [d = 2], [tauI = 1]
    and [tauD = 2] the two exits of the symptomatic class cancel. *)
Lemma G_singular_outside_precondition :
  G cancelling_exits = Err SingularMatrix.
Proof.
  assert (Hnz : durations_nonzero cancelling_exits).
  { unfold durations_nonzero, cancelling_exits; cbn. repeat split; lra. }
  unfold G. rewrite V_value by exact Hnz. rewrite F_value. cbn [bind].
  unfold V_matrix at 1. rewrite la_inv_4_singular; [reflexivity |].
  change (det 4 (V_matrix cancelling_exits) = 0). rewrite det_V.
  unfold removal_rate, cancelling_exits; cbn [tauE tauP tauI tauD d]. lra.
Qed.

(** Transmission rates that are negative lie outside the parameter sets of
    the specification; there the maximum and the closed form part: with
    positive durations, [f = d = 0] and [betaP = betaA = -1] the closed form
    is [-2], and the cell [R_0] evaluates to [0], the largest of the
    eigenvalues [-2, 0, 0, 0]. *)
Lemma R_0_with_negative_rates :
  durations_positive negative_rates /\
  fraction (f negative_rates) /\ fraction (d negative_rates) /\
  R_0_closed negative_rates = -2 /\
  R_0 negative_rates (Ok 0) /\
  ~ R_0 negative_rates (Ok (R_0_closed negative_rates)).
Proof.
  assert (Hpos : durations_positive negative_rates).
  { unfold durations_positive, negative_rates; cbn. repeat split; lra. }
  assert (Hd : fraction (d negative_rates)).
  { unfold fraction, negative_rates; cbn. lra. }
  assert (Hf : fraction (f negative_rates)).
  { unfold fraction, negative_rates; cbn. lra. }
  assert (Hclosed : R_0_closed negative_rates = -2).
  { unfold R_0_closed, negative_rates;
      cbn [betaP betaA betaS tauE tauP tauI tauD f d N]. lra. }
  pose proof (positive_nonzero _ Hpos) as Hnz.
  pose proof (removal_rate_pos _ Hpos Hd) as Hr. apply Rgt_not_eq in Hr.
  assert (Hmax : Rmax 0 (R_0_closed negative_rates) = 0).
  { rewrite Hclosed. apply Rmax_left. lra. }
  repeat split; try assumption; try (cbn; lra).
  - apply (R_0_value _ Hnz Hr). now rewrite Hmax.
  - intros H. apply (R_0_value _ Hnz Hr) in H. rewrite Hmax, Hclosed in H.
    inversion H. lra.
Qed.

(** C10.  For positive durations and [f], [d] in the unit interval, [G]
    evaluates to an array whose rows below the first are zero and whose
    entry [G[0,0]] is the closed form
    [betaP*tauP + betaA*f*tauI + betaA*(1-f)/((1-d)/tauI + d/tauD)]; the
    eigenvalues that [la.eig] returns are that entry and three zeros, in
    some order; so the cell [R_0] evaluates to the larger of [0] and the
    closed form, and for the transmission rates of a parameter set, which
    are not negative, the maximum-eigenvalue computation equals the closed
    form. *)
Theorem R_0_closed_form (p : params) :
  durations_positive p -> fraction (f p) -> fraction (d p) ->
  (exists g1 g2 g3,
     G p = Ok [[R_0_closed p; g1; g2; g3]; [0; 0; 0; 0]; [0; 0; 0; 0]; [0; 0; 0; 0]]) /\
  (forall g wv, G p = Ok g -> la_eig g wv ->
                Permutation (fst wv) [R_0_closed p; 0; 0; 0]) /\
  (forall res, R_0 p res <-> res = Ok (Rmax 0 (R_0_closed p))) /\
  (0 <= betaP p -> 0 <= betaA p ->
   forall res, R_0 p res <-> res = Ok (R_0_closed p)).
Proof.
  intros Hpos Hf Hd.
  pose proof (positive_nonzero _ Hpos) as Hnz.
  pose proof (removal_rate_pos _ Hpos Hd) as Hr. apply Rgt_not_eq in Hr.
  split; [| split; [| split]].
  - do 3 eexists. now apply G_value.
  - intros g wv Hg Heig. rewrite G_value in Hg by assumption.
    inversion Hg; subst g. now apply la_eig_G.
  - now apply R_0_value.
  - intros HbP HbA res.
    rewrite <- (Rmax_right 0 (R_0_closed p)) at 1
      by now apply R_0_closed_nonneg.
    now apply R_0_value.
Qed.

Lemma R_0_closed_form_witness :
  R_0 notebook (Ok (R_0_closed notebook)) /\
  R_0 negative_rates (Ok (Rmax 0 (R_0_closed negative_rates))).
Proof.
  split.
  - destruct (R_0_closed_form notebook notebook_positive notebook_f_fraction
                              notebook_d_fraction) as (_ & _ & _ & H).
    apply H; [cbn; lra | cbn; lra | reflexivity].
  - assert (Hpos : durations_positive negative_rates)
      by (unfold durations_positive, negative_rates; cbn; repeat split; lra).
    assert (Hd : fraction (d negative_rates))
      by (unfold fraction, negative_rates; cbn; lra).
    assert (Hf : fraction (f negative_rates))
      by (unfold fraction, negative_rates; cbn; lra).
    destruct (R_0_closed_form negative_rates Hpos Hf Hd) as (_ & _ & H & _).
    now apply H.
Defined.

Lemma estimator_reads_no_betaS p q :
  differ_only_in_betaS p q -> V p = V q /\ F p = F q /\ G p = G q.
Proof.
  destruct p as [bP bA bS tE tP tI tD f0 d0 N0],
           q as [bP' bA' bS' tE' tP' tI' tD' f0' d0' N0'].
  unfold differ_only_in_betaS; cbn [betaP betaA tauE tauP tauI tauD f d N].
  intros (-> & -> & -> & -> & -> & -> & -> & -> & ->).
  repeat split; reflexivity.
Qed.

(** C5.  Two parameter records that differ only in [betaS] give the same
    arrays [F] and [G] and the same values of the cell [R_0]; the derivative
    function does read [betaS]: on the two records its first two components
    differ by [-/+ (S/N) * (betaS' - betaS) * Is], so they are different
    whenever [S], [Is] and the change of [betaS] are not zero, and its other
    four components agree. *)
Theorem betaS_flows_only_into_SEIR (p q : params) :
  differ_only_in_betaS p q ->
  (F p = F q /\ G p = G q /\ forall res, R_0 p res <-> R_0 q res) /\
  (forall y t,
     defined p -> length y = 6%nat ->
     exists dp dq,
       SEIR_args p y t = Ok dp /\ SEIR_args q y t = Ok dq /\
       nth 0 dq 0 - nth 0 dp 0
         = - (nth 0 y 0 / N p) * ((betaS q - betaS p) * nth 4 y 0) /\
       nth 1 dq 0 - nth 1 dp 0
         = (nth 0 y 0 / N p) * ((betaS q - betaS p) * nth 4 y 0) /\
       (forall i, (2 <= i)%nat -> nth i dq 0 = nth i dp 0) /\
       (betaS p <> betaS q -> nth 0 y 0 <> 0 -> nth 4 y 0 <> 0 ->
        nth 0 dp 0 <> nth 0 dq 0 /\ nth 1 dp 0 <> nth 1 dq 0)).
Proof.
  intros Hdiff. split.
  - destruct (estimator_reads_no_betaS p q Hdiff) as (_ & HF & HG).
    split; [exact HF | split; [exact HG |]].
    intros res. unfold R_0. rewrite HG. reflexivity.
  - intros y t Hp Hlen.
    assert (Hq : defined q).
    { destruct Hdiff as (_ & _ & HE & HP & HI & HD & _ & _ & HN).
      unfold defined. rewrite <- HE, <- HP, <- HI, <- HD, <- HN. exact Hp. }
    exists (rhs p y), (rhs q y).
    split; [now apply SEIR_args_defined |].
    split; [now apply SEIR_args_defined |].
    destruct Hdiff as (HbP & HbA & HE & HP & HI & HD & Hf & Hd & HN).
    destruct Hp as (HN0 & _).
    assert (H0 : nth 0 (rhs q y) 0 - nth 0 (rhs p y) 0
                 = - (nth 0 y 0 / N p) * ((betaS q - betaS p) * nth 4 y 0)).
    { unfold rhs, SEIR_rhs; cbn [nth]. rewrite <- HbP, <- HbA, <- HN. ring. }
    assert (H1 : nth 1 (rhs q y) 0 - nth 1 (rhs p y) 0
                 = (nth 0 y 0 / N p) * ((betaS q - betaS p) * nth 4 y 0)).
    { unfold rhs, SEIR_rhs; cbn [nth].
      rewrite <- HbP, <- HbA, <- HN, <- HE. ring. }
    split; [exact H0 | split; [exact H1 | split]].
    + intros i Hi. unfold rhs, SEIR_rhs.
      rewrite <- HE, <- HP, <- HI, <- HD, <- Hf, <- Hd.
      do 2 (destruct i as [|i]; [lia |]).
      do 4 (destruct i as [|i]; [reflexivity |]).
      destruct i; reflexivity.
    + intros Hb HS HIs.
      assert (Hne : (nth 0 y 0 / N p) * ((betaS q - betaS p) * nth 4 y 0) <> 0).
      { apply Rmult_integral_contrapositive_currified.
        - unfold Rdiv. apply Rmult_integral_contrapositive_currified;
            [exact HS | now apply Rinv_neq_0_compat].
        - apply Rmult_integral_contrapositive_currified; [lra | exact HIs]. }
      split; intros Heq; apply Hne; lra.
Qed.

Lemma betaS_flows_only_into_SEIR_witness :
  (forall res, R_0 notebook res <-> R_0 (with_betaS 0.4 notebook) res) /\
  exists dp dq,
    SEIR_args notebook [4899986; 0; 0; 0; 14; 0] 0 = Ok dp /\
    SEIR_args (with_betaS 0.4 notebook) [4899986; 0; 0; 0; 14; 0] 0 = Ok dq /\
    nth 0 dp 0 <> nth 0 dq 0 /\ nth 1 dp 0 <> nth 1 dq 0.
Proof.
  assert (Hdiff : differ_only_in_betaS notebook (with_betaS 0.4 notebook))
    by (repeat split; reflexivity).
  destruct (betaS_flows_only_into_SEIR notebook (with_betaS 0.4 notebook) Hdiff)
    as [(_ & _ & Hsame) Hreads].
  split; [exact Hsame |].
  destruct (Hreads [4899986; 0; 0; 0; 14; 0] 0 notebook_defined eq_refl)
    as (dp & dq & Hdp & Hdq & _ & _ & _ & Hne).
  exists dp, dq. split; [exact Hdp | split; [exact Hdq |]].
  apply Hne; cbn [nth betaS with_betaS notebook]; lra.
Defined.

(** * The integration *)

Lemma SEIR_args_errors p y t e :
  SEIR_args p y t = Err e -> e = ZeroDivisionError \/ e = ValueError.
Proof.
  destruct p as [bP bA bS tE tP tI tD f0 d0 N0]. unfold SEIR_args.
  destruct y as [|S [|E [|Ip [|Ia [|Is [|Rc [|? ?]]]]]]];
    try (intros H; inversion H; now right).
  py_unfold. split_divisions; intros H; inversion H; now left.
Qed.

Lemma euler_steps_length func : forall ts y t0 rows,
  euler_steps func y t0 ts = Ok rows -> length rows = length ts.
Proof.
  induction ts as [|t1 ts IH]; intros y t0 rows H; cbn [euler_steps] in H.
  - now inversion H.
  - destruct (func y t0) as [dy | e]; cbn [bind] in H; [| discriminate].
    match type of H with
    | bind (euler_steps func ?y1 t1 ts) _ = _ =>
        destruct (euler_steps func y1 t1 ts) as [rows' | e] eqn:Hrec
    end; cbn [bind] in H; [| discriminate].
    inversion H. cbn [length]. f_equal. now apply (IH _ _ _ Hrec).
Qed.

Lemma euler_steps_raised func : forall ts y t0 e,
  euler_steps func y t0 ts = Err e -> exists y' t', func y' t' = Err e.
Proof.
  induction ts as [|t1 ts IH]; intros y t0 e H; cbn [euler_steps] in H.
  - discriminate.
  - destruct (func y t0) as [dy | e'] eqn:Hcall; cbn [bind] in H.
    + match type of H with
      | bind (euler_steps func ?y1 t1 ts) _ = _ =>
          destruct (euler_steps func y1 t1 ts) as [rows' | e'] eqn:Hrec
      end; cbn [bind] in H; [discriminate |].
      inversion H; subst e'. now apply (IH _ _ _ Hrec).
    + inversion H; subst e'. now exists y, t0.
Qed.

Lemma euler_contract : odeint_contract euler.
Proof.
  split.
  - intros func y0 t0 ts rows H. unfold euler in H.
    destruct (euler_steps func y0 t0 ts); cbn [bind] in H; [| discriminate].
    now inversion H.
  - intros func y0 [|t0 ts] rows H; unfold euler in H.
    + now inversion H.
    + destruct (euler_steps func y0 t0 ts) as [rows' | e] eqn:Hrec;
        cbn [bind] in H; [| discriminate].
      inversion H. cbn [length]. f_equal. now apply (euler_steps_length _ _ _ _ _ Hrec).
  - intros func y0 [|t0 ts] e H; unfold euler in H; [discriminate |].
    destruct (euler_steps func y0 t0 ts) as [rows' | e'] eqn:Hrec;
      cbn [bind] in H; [discriminate |].
    inversion H; subst e'. right. now apply (euler_steps_raised _ _ _ _ _ Hrec).
Qed.

Lemma euler_steps_runs p : forall ts y t0,
  defined p -> length y = 6%nat ->
  exists rows, euler_steps (SEIR_args p) y t0 ts = Ok rows.
Proof.
  induction ts as [|t1 ts IH]; intros y t0 Hp Hlen; cbn [euler_steps].
  - now exists [].
  - rewrite SEIR_args_defined by assumption. cbn [bind].
    match goal with
    | |- context [euler_steps _ ?y1 t1 ts] =>
        destruct (IH y1 t1 Hp) as [rows Hrows]
    end.
    + rewrite length_map, length_combine, Hlen. reflexivity.
    + rewrite Hrows. cbn [bind]. eauto.
Qed.

(** The cells [y0], [t] and [sol] of the notebook: the initial state misses
    [N] by one, and the integration from it over the 71 times runs. *)
Lemma notebook_y0_total : total y0 = N notebook + 1.
Proof. unfold total, y0, notebook; cbn [fold_right N]. lra. Qed.

Lemma sol_euler_runs p y ts :
  defined p -> length y = 6%nat -> exists rows, sol euler p y ts = Ok rows.
Proof.
  intros Hp Hlen. unfold sol, euler. destruct ts as [|t0 ts]; [now exists [] |].
  destruct (euler_steps_runs p ts y t0 Hp Hlen) as [rows Hrows].
  rewrite Hrows. cbn [bind]. eauto.
Qed.

Lemma notebook_sol_runs :
  exists rows, sol euler notebook y0 t = Ok rows /\
               length rows = 71%nat /\ hd_error rows = Some y0.
Proof.
  destruct (sol_euler_runs notebook y0 t notebook_defined eq_refl) as [rows Hrows].
  exists rows. split; [exact Hrows | split].
  - apply (row_count euler euler_contract) in Hrows. rewrite Hrows. reflexivity.
  - apply (first_row euler euler_contract (SEIR_args notebook) y0 (hd 0 t) (tl t)).
    exact Hrows.
Qed.

(** C8, as the specification states it, fails: the all-zero state does not
    sum to [N = 4900000], not within the tolerance [4.9 = 1e-6 * N] either,
    and the integration of the model from it runs and returns it. *)
Lemma sol_accepts_invalid_initial_state :
  ~ sums_to_N 4.9 notebook [0; 0; 0; 0; 0; 0] /\
  sol euler notebook [0; 0; 0; 0; 0; 0] [0; 1]
  = Ok [[0; 0; 0; 0; 0; 0]; [0; 0; 0; 0; 0; 0]] /\
  ~ (sol euler notebook [0; 0; 0; 0; 0; 0] [0; 1] = Err InvalidInitialState
     <-> ~ sums_to_N 4.9 notebook [0; 0; 0; 0; 0; 0]).
Proof.
  assert (Hbad : ~ sums_to_N 4.9 notebook [0; 0; 0; 0; 0; 0]).
  { unfold sums_to_N, total, notebook; cbn [fold_right N].
    unfold Rabs. destruct (Rcase_abs _); lra. }
  assert (Hrun : sol euler notebook [0; 0; 0; 0; 0; 0] [0; 1]
                 = Ok [[0; 0; 0; 0; 0; 0]; [0; 0; 0; 0; 0; 0]]).
  { unfold sol, euler. rewrite euler_steps_fixed; [reflexivity | reflexivity |].
    intros s. apply SEIR_args_disease_free. exact notebook_defined. }
  split; [exact Hbad | split; [exact Hrun |]].
  intros [_ Hraise]. specialize (Hraise Hbad). rewrite Hrun in Hraise.
  discriminate.
Qed.

(** C8, amended.  The integration validates nothing: whatever the initial
    state, whether or not its components sum to [N], it never raises
    [InvalidInitialState]; the only exceptions are those of [odeint] itself
    and the [ZeroDivisionError] and [ValueError] of [SEIR]; and when it
    returns, there is one row per requested time and the first row is the
    initial state as supplied, neither clamped nor corrected. *)
Theorem sol_does_not_validate (odeint : solver) :
  odeint_contract odeint ->
  forall p y0 ts,
    sol odeint p y0 ts <> Err InvalidInitialState /\
    (forall e, sol odeint p y0 ts = Err e ->
               e = OdeintError \/ e = ZeroDivisionError \/ e = ValueError) /\
    (forall rows, sol odeint p y0 ts = Ok rows ->
                  length rows = length ts /\
                  (ts <> [] -> hd_error rows = Some y0)).
Proof.
  intros [Hfirst Hcount Hraised] p y0 ts.
  assert (Herr : forall e, sol odeint p y0 ts = Err e ->
                           e = OdeintError \/ e = ZeroDivisionError \/ e = ValueError).
  { intros e H. apply Hraised in H. destruct H as [-> | (y & s & H)].
    - now left.
    - right. now apply SEIR_args_errors in H. }
  split; [| split].
  - intros H. apply Herr in H. destruct H as [H | [H | H]]; discriminate H.
  - exact Herr.
  - intros rows H. split.
    + now apply Hcount in H.
    + intros Hts. destruct ts as [|t0 ts']; [contradiction |].
      now apply Hfirst in H.
Qed.

Lemma sol_does_not_validate_witness :
  sol euler notebook [0; 0; 0; 0; 0; 0] [0; 1] <> Err InvalidInitialState /\
  hd_error [[0; 0; 0; 0; 0; 0]; [0; 0; 0; 0; 0; 0]] = Some [0; 0; 0; 0; 0; 0].
Proof.
  destruct (sol_does_not_validate euler euler_contract notebook
                                  [0; 0; 0; 0; 0; 0] [0; 1])
    as (Hnever & _ & Hrows).
  split; [exact Hnever |].
  apply (Hrows [[0; 0; 0; 0; 0; 0]; [0; 0; 0; 0; 0; 0]]); [| discriminate].
  unfold sol, euler. rewrite euler_steps_fixed; [reflexivity | reflexivity |].
  intros s. apply SEIR_args_disease_free. exact notebook_defined.
Defined.

(** * Further properties of the derivative function *)

Lemma divisors_nonzero_dec tauE tauP tauI tauD N :
  {divisors_nonzero tauE tauP tauI tauD N} + {~ divisors_nonzero tauE tauP tauI tauD N}.
Proof.
  unfold divisors_nonzero.
  destruct (Req_dec_T N 0); [right; tauto |].
  destruct (Req_dec_T tauE 0); [right; tauto |].
  destruct (Req_dec_T tauP 0); [right; tauto |].
  destruct (Req_dec_T tauI 0); [right; tauto |].
  destruct (Req_dec_T tauD 0); [right; tauto |].
  left. tauto.
Qed.

Lemma quotient_zero (a b : R) : b <> 0 -> a / b = 0 -> a = 0.
Proof.
  intros Hb H. unfold Rdiv in H. apply Rmult_integral in H.
  destruct H as [H | H]; [exact H |].
  exfalso. now apply (Rinv_neq_0_compat b).
Qed.

(** X1.  The three outcomes of a call of [SEIR] with a population size that
    is not zero: [ValueError] exactly when [y] does not hold six numbers,
    whatever the other parameters are; [ZeroDivisionError] exactly when it
    does and one of the durations [tauE], [tauP], [tauI], [tauD] is zero; a
    list of six derivatives otherwise.  No other exception is raised. *)
Theorem SEIR_outcomes y t betaP betaA betaS tauE tauP tauI tauD f d N :
  N <> 0 ->
  let call := SEIR y t betaP betaA betaS tauE tauP tauI tauD f d N in
  (call = Err ValueError <-> length y <> 6%nat) /\
  (call = Err ZeroDivisionError <->
     length y = 6%nat /\ (tauE = 0 \/ tauP = 0 \/ tauI = 0 \/ tauD = 0)) /\
  ((exists dydt, call = Ok dydt /\ length dydt = 6%nat) <->
     length y = 6%nat /\ tauE <> 0 /\ tauP <> 0 /\ tauI <> 0 /\ tauD <> 0) /\
  (forall e, call = Err e -> e = ValueError \/ e = ZeroDivisionError).
Proof.
  intros HN call. subst call.
  destruct (Nat.eq_dec (length y) 6) as [Hlen | Hlen].
  - destruct y as [|S [|E [|Ip [|Ia [|Is [|Rc [|? ?]]]]]]]; try discriminate Hlen.
    destruct (divisors_nonzero_dec tauE tauP tauI tauD N) as [Hnz | Hnz].
    + rewrite (SEIR_defined _ _ _ _ _ _ _ _ _ _ _ _ _ _ _ _ _ Hnz).
      destruct Hnz as (_ & HE & HP & HI & HD).
      split; [split; [discriminate | tauto] |].
      split; [split; [discriminate | tauto] |].
      split; [| discriminate].
      split; [tauto | intros _; eexists; split; reflexivity].
    + rewrite (SEIR_zero_divisor _ _ _ _ _ _ _ _ _ _ _ _ _ _ _ _ _ Hnz).
      assert (Hzero : tauE = 0 \/ tauP = 0 \/ tauI = 0 \/ tauD = 0).
      { destruct (Req_dec_T tauE 0); [tauto |].
        destruct (Req_dec_T tauP 0); [tauto |].
        destruct (Req_dec_T tauI 0); [tauto |].
        destruct (Req_dec_T tauD 0); [tauto |].
        exfalso. apply Hnz. unfold divisors_nonzero. tauto. }
      split; [split; [discriminate | tauto] |].
      split; [tauto |].
      split; [| intros e H; inversion H; now right].
      split; [intros (dydt & H & _); discriminate H | tauto].
  - rewrite (SEIR_wrong_length _ _ _ _ _ _ _ _ _ _ _ _ Hlen).
    split; [tauto |].
    split; [split; [discriminate | tauto] |].
    split; [| intros e H; inversion H; now left].
    split; [intros (dydt & H & _); discriminate H | tauto].
Qed.

Lemma SEIR_outcomes_witness :
  (exists dydt,
     SEIR [4.9 * 10 ^ 6; 1; 0; 0; 0; 0] 0
          0.8 0.8 0.8 3.5 1.5 3.5 14 0.3 0.05 (4.9 * 10 ^ 6) = Ok dydt /\
     length dydt = 6%nat) /\
  SEIR [4.9 * 10 ^ 6; 1; 0; 0; 0; 0] 0
       0.8 0.8 0.8 3.5 0 3.5 14 0.3 0.05 (4.9 * 10 ^ 6) = Err ZeroDivisionError /\
  SEIR [4.9 * 10 ^ 6; 1; 0] 0
       0.8 0.8 0.8 3.5 1.5 3.5 14 0.3 0.05 (4.9 * 10 ^ 6) = Err ValueError.
Proof.
  assert (HN : 4.9 * 10 ^ 6 <> 0) by lra.
  split; [| split].
  - apply (SEIR_outcomes [4.9 * 10 ^ 6; 1; 0; 0; 0; 0] 0
                         0.8 0.8 0.8 3.5 1.5 3.5 14 0.3 0.05 _ HN).
    split; [reflexivity | repeat split; lra].
  - apply (SEIR_outcomes [4.9 * 10 ^ 6; 1; 0; 0; 0; 0] 0
                         0.8 0.8 0.8 3.5 0 3.5 14 0.3 0.05 _ HN).
    split; [reflexivity | right; left; reflexivity].
  - apply (SEIR_outcomes [4.9 * 10 ^ 6; 1; 0] 0
                         0.8 0.8 0.8 3.5 1.5 3.5 14 0.3 0.05 _ HN).
    cbn [length]. lia.
Defined.

Lemma infection_nonneg p y :
  0 < N p -> nonneg_rates p ->
  0 <= nth 0 y 0 -> 0 <= nth 2 y 0 -> 0 <= nth 3 y 0 -> 0 <= nth 4 y 0 ->
  0 <= nth 0 y 0 / N p
       * (betaP p * nth 2 y 0 + betaA p * nth 3 y 0 + betaS p * nth 4 y 0).
Proof.
  intros HN (HbP & HbA & HbS) HS HIp HIa HIs.
  apply Rmult_le_pos.
  - unfold Rdiv. apply Rmult_le_pos; [exact HS |].
    left. now apply Rinv_0_lt_compat.
  - repeat apply Rplus_le_le_0_compat; now apply Rmult_le_pos.
Qed.

(** X2.  With [N > 0] and transmission rates that are not negative: the
    first two derivatives that [SEIR] returns add up to [-E/tauE] (what
    leaves [S] enters [E]), and at a state whose components are not negative
    the first derivative is not positive; hence the susceptible compartment
    never increases along a trajectory of the model that stays
    non-negative, and the same over an interval on which the model is
    solved and the components are not negative, whatever they are outside
    it. *)
Theorem SEIR_susceptibles_never_increase (p : params) :
  0 < N p -> nonneg_rates p ->
  (forall y t dydt,
     SEIR_args p y t = Ok dydt ->
     nth 0 dydt 0 + nth 1 dydt 0 = - (nth 1 y 0 / tauE p) /\
     (0 <= nth 0 y 0 -> 0 <= nth 2 y 0 -> 0 <= nth 3 y 0 -> 0 <= nth 4 y 0 ->
      nth 0 dydt 0 <= 0)) /\
  (forall y,
     solves p y ->
     (forall s, 0 <= component 0 y s /\ 0 <= component 2 y s /\
                0 <= component 3 y s /\ 0 <= component 4 y s) ->
     forall a b, a <= b -> component 0 y b <= component 0 y a) /\
  (forall y a b,
     solves_on p y a b ->
     (forall s, a <= s <= b ->
                0 <= component 0 y s /\ 0 <= component 2 y s /\
                0 <= component 3 y s /\ 0 <= component 4 y s) ->
     forall x z, a <= x -> x <= z -> z <= b ->
       component 0 y z <= component 0 y x).
Proof.
  intros HN Hrates.
  assert (Hpoint : forall y,
            0 <= nth 0 y 0 -> 0 <= nth 2 y 0 -> 0 <= nth 3 y 0 -> 0 <= nth 4 y 0 ->
            nth 0 (rhs p y) 0 <= 0).
  { intros y HS HIp HIa HIs.
    pose proof (infection_nonneg p y HN Hrates HS HIp HIa HIs) as H.
    unfold rhs, SEIR_rhs; cbn [nth]. lra. }
  split; [| split].
  - intros y t dydt H.
    apply SEIR_args_Ok_inv in H. destruct H as (_ & _ & ->).
    split; [unfold rhs, SEIR_rhs; cbn [nth]; lra | apply Hpoint].
  - intros y Hy Hpos.
    pose proof (solves_inv p y Hy) as Hinv.
    assert (pr : derivable (component 0 y)).
    { intros x. exists (nth 0 (rhs p (y x)) 0).
      destruct (Hinv x) as (_ & _ & Hder). apply Hder. lia. }
    assert (Hval : forall x, derive_pt (component 0 y) x (pr x) = nth 0 (rhs p (y x)) 0).
    { intros x. apply derive_pt_eq_0.
      destruct (Hinv x) as (_ & _ & Hder). apply Hder. lia. }
    apply (nonpos_derivative_1 (component 0 y) pr).
    intros x. rewrite Hval.
    destruct (Hpos x) as (HS & HIp & HIa & HIs). now apply Hpoint.
  - intros y a b Hy Hpos.
    apply (nonincreasing_on (component 0 y) (fun u => nth 0 (rhs p (y u)) 0) a b).
    + intros c Hc. destruct (solves_on_inv p y a b Hy c Hc) as (_ & Hder).
      apply Hder. lia.
    + intros c Hc. destruct (Hpos c Hc) as (HS & HIp & HIa & HIs).
      now apply Hpoint.
Qed.

Lemma notebook_rates : nonneg_rates notebook.
Proof. unfold nonneg_rates, notebook; cbn [betaP betaA betaS]. lra. Qed.

Lemma notebook_N_pos : 0 < N notebook.
Proof. unfold notebook; cbn [N]. lra. Qed.

Lemma SEIR_susceptibles_never_increase_witness :
  nth 0 (rhs notebook [4899986; 0; 0; 0; 14; 0]) 0 <= 0 /\
  component 0 (fun _ => [4.9 * 10 ^ 6; 0; 0; 0; 0; 0]) 70
  <= component 0 (fun _ => [4.9 * 10 ^ 6; 0; 0; 0; 0; 0]) 0 /\
  component 0 recovering 70 <= component 0 recovering 0.
Proof.
  destruct (SEIR_susceptibles_never_increase notebook notebook_N_pos notebook_rates)
    as (Hpoint & Hrun & _).
  split; [| split].
  - apply (Hpoint [4899986; 0; 0; 0; 14; 0] 0); cbn [nth]; try lra.
    apply SEIR_args_defined; [exact notebook_defined | reflexivity].
  - apply (Hrun (fun _ => [4.9 * 10 ^ 6; 0; 0; 0; 0; 0])).
    + apply constant_solves;
        [exact notebook_defined | reflexivity
        | apply rhs_disease_free; exact notebook_defined].
    + intros s. unfold component; cbn [nth]. lra.
    + lra.
  - assert (HN : 0 < N recovery_only) by (cbn; lra).
    assert (Hrates : nonneg_rates recovery_only)
      by (unfold nonneg_rates, recovery_only; cbn; lra).
    apply (proj2 (proj2 (SEIR_susceptibles_never_increase recovery_only HN Hrates))
                 recovering 0 70).
    + apply solves_on_of_solves. exact recovering_solves.
    + intros s _. unfold component, recovering; cbn [nth].
      repeat split; try lra. left. apply exp_pos.
    + lra.
    + lra.
    + lra.
Defined.

(** X3.  With positive durations, [N > 0], transmission rates that are not
    negative and [f], [d] in the unit interval, the derivative that [SEIR]
    returns at a state without negative components does not lead out of
    such states: a compartment that is empty has a derivative that is not
    negative (and [S], once empty, stays so). *)
Theorem SEIR_keeps_compartments_nonnegative (p : params) S E Ip Ia Is Rc t :
  durations_positive p -> 0 < N p -> nonneg_rates p ->
  fraction (f p) -> fraction (d p) ->
  0 <= S -> 0 <= E -> 0 <= Ip -> 0 <= Ia -> 0 <= Is -> 0 <= Rc ->
  exists dydt,
    SEIR_args p [S; E; Ip; Ia; Is; Rc] t = Ok dydt /\
    (S = 0 -> nth 0 dydt 0 = 0) /\
    (E = 0 -> 0 <= nth 1 dydt 0) /\
    (Ip = 0 -> 0 <= nth 2 dydt 0) /\
    (Ia = 0 -> 0 <= nth 3 dydt 0) /\
    (Is = 0 -> 0 <= nth 4 dydt 0) /\
    0 <= nth 5 dydt 0.
Proof.
  intros Hpos HN Hrates [Hf0 Hf1] Hd HS HE HIp HIa HIs HRc.
  pose proof (positive_nonzero p Hpos) as (HnE & HnP & HnI & HnD).
  assert (Hp : defined p).
  { unfold defined, divisors_nonzero. repeat split; try assumption.
    now apply Rgt_not_eq. }
  exists (rhs p [S; E; Ip; Ia; Is; Rc]).
  split; [now apply SEIR_args_defined |].
  pose proof (infection_nonneg p [S; E; Ip; Ia; Is; Rc] HN Hrates HS HIp HIa HIs)
    as Hinf. cbn [nth] in Hinf.
  pose proof (removed_rate_nonneg p [S; E; Ip; Ia; Is; Rc]) as HR.
  destruct Hpos as (HtE & HtP & HtI & HtD).
  pose proof (Rinv_0_lt_compat _ HtE) as HiE.
  pose proof (Rinv_0_lt_compat _ HtP) as HiP.
  unfold rhs, SEIR_rhs in *; cbn [nth] in *. unfold Rdiv in *.
  split; [intros ->; ring |].
  split; [intros ->; lra |].
  split; [intros ->; assert (0 <= E * / tauE p) by (apply Rmult_le_pos; lra); lra |].
  split; [intros ->;
          assert (0 <= f p * Ip * / tauP p)
            by (apply Rmult_le_pos; [apply Rmult_le_pos |]; lra); lra |].
  split; [intros ->;
          assert (0 <= (1 - f p) * Ip * / tauP p)
            by (apply Rmult_le_pos; [apply Rmult_le_pos |]; lra); lra |].
  apply HR; assumption.
Qed.

Lemma SEIR_keeps_compartments_nonnegative_witness :
  exists dydt,
    SEIR_args notebook [4.9 * 10 ^ 6; 1; 0; 0; 0; 0] 0 = Ok dydt /\
    0 <= nth 2 dydt 0 /\ 0 <= nth 3 dydt 0 /\ 0 <= nth 4 dydt 0.
Proof.
  destruct (SEIR_keeps_compartments_nonnegative notebook
              (4.9 * 10 ^ 6) 1 0 0 0 0 0
              notebook_positive notebook_N_pos notebook_rates
              notebook_f_fraction notebook_d_fraction)
    as (dydt & Hcall & _ & _ & HIp & HIa & HIs & _); try lra.
  exists dydt. auto.
Defined.

(** X4.  [SEIR] is homogeneous in the population: multiplying the state and
    [N] by the same nonzero factor multiplies the derivative by that factor,
    and leaves an exception as it is.  Counts and densities therefore follow
    the same model. *)
Theorem SEIR_homogeneous (c : R) y t betaP betaA betaS tauE tauP tauI tauD f d N :
  c <> 0 ->
  SEIR (scale c y) t betaP betaA betaS tauE tauP tauI tauD f d (c * N)
  = (dydt <- SEIR y t betaP betaA betaS tauE tauP tauI tauD f d N ;;
     Ok (scale c dydt)).
Proof.
  intros Hc.
  destruct (Nat.eq_dec (length y) 6) as [Hlen | Hlen].
  - destruct y as [|S [|E [|Ip [|Ia [|Is [|Rc [|? ?]]]]]]]; try discriminate Hlen.
    cbn [scale map].
    destruct (divisors_nonzero_dec tauE tauP tauI tauD N) as [Hnz | Hnz].
    + assert (Hnz' : divisors_nonzero tauE tauP tauI tauD (c * N)).
      { destruct Hnz as (HN & Hrest). split; [| exact Hrest].
        now apply Rmult_integral_contrapositive_currified. }
      rewrite (SEIR_defined _ _ _ _ _ _ _ _ _ _ _ _ _ _ _ _ _ Hnz).
      rewrite (SEIR_defined _ _ _ _ _ _ _ _ _ _ _ _ _ _ _ _ _ Hnz').
      cbn [bind]. unfold SEIR_rhs, scale; cbn [map].
      destruct Hnz as (HN & HE & HP & HI & HD).
      list_eq; field; auto.
    + assert (Hnz' : ~ divisors_nonzero tauE tauP tauI tauD (c * N)).
      { intros (HN & Hrest). apply Hnz. split; [| exact Hrest].
        intros ->. apply HN. ring. }
      rewrite (SEIR_zero_divisor _ _ _ _ _ _ _ _ _ _ _ _ _ _ _ _ _ Hnz).
      rewrite (SEIR_zero_divisor _ _ _ _ _ _ _ _ _ _ _ _ _ _ _ _ _ Hnz').
      reflexivity.
  - rewrite (SEIR_wrong_length y) by exact Hlen.
    rewrite SEIR_wrong_length; [reflexivity |].
    unfold scale. now rewrite length_map.
Qed.

Lemma SEIR_homogeneous_witness :
  SEIR (scale (/ (4.9 * 10 ^ 6)) [4899986; 0; 0; 0; 14; 0]) 0
       0.8 0.8 0.8 3.5 1.5 3.5 14 0.3 0.05 (/ (4.9 * 10 ^ 6) * (4.9 * 10 ^ 6))
  = (dydt <- SEIR [4899986; 0; 0; 0; 14; 0] 0
                  0.8 0.8 0.8 3.5 1.5 3.5 14 0.3 0.05 (4.9 * 10 ^ 6) ;;
     Ok (scale (/ (4.9 * 10 ^ 6)) dydt)).
Proof.
  apply SEIR_homogeneous. apply Rinv_neq_0_compat. lra.
Defined.

(** X5.  The states at which [SEIR] returns the zero vector are exactly the
    disease-free ones: the model has no equilibrium with an infected
    compartment that is not empty, whatever the parameters. *)
Theorem SEIR_equilibria_are_disease_free (p : params) y t :
  SEIR_args p y t = Ok [0; 0; 0; 0; 0; 0] <->
  defined p /\ exists S Rc, y = [S; 0; 0; 0; 0; Rc].
Proof.
  split.
  - intros H. apply SEIR_args_Ok_inv in H. destruct H as (Hlen & Hp & Hzero).
    split; [exact Hp |].
    destruct y as [|S [|E [|Ip [|Ia [|Is [|Rc [|? ?]]]]]]]; try discriminate Hlen.
    destruct Hp as (HN & HE & HP & HI & HD).
    unfold rhs, SEIR_rhs in Hzero; cbn [nth] in Hzero.
    injection Hzero as H0 H1 H2 H3 H4 H5.
    assert (E0 : E = 0) by (apply (quotient_zero E (tauE p) HE); lra).
    subst E.
    assert (Ip0 : Ip = 0).
    { apply (quotient_zero Ip (tauP p) HP). unfold Rdiv in *. lra. }
    subst Ip.
    assert (Ia0 : Ia = 0).
    { apply (quotient_zero Ia (tauI p) HI). unfold Rdiv in *. lra. }
    subst Ia.
    assert (Is0 : Is = 0).
    { assert (Hrec : (1 - d p) * Is / tauI p = 0) by (unfold Rdiv in *; lra).
      assert (Hdie : d p * Is / tauD p = 0) by (unfold Rdiv in *; lra).
      apply quotient_zero in Hrec; [| exact HI].
      apply quotient_zero in Hdie; [| exact HD]. lra. }
    subst Is. now exists S, Rc.
  - intros (Hp & S & Rc & ->). now apply SEIR_args_disease_free.
Qed.

(** X6.  At the disease-free level [S = N] the infected part of the
    derivative that [SEIR] returns is [(F - V) x + (betaS - betaA) * Is * e0]
    for the infected part [x = (E, Ip, Ia, Is)] of the state: the arrays
    [F] and [V] of the cell [R_0] linearise the model exactly when
    [betaS = betaA] (or no one is symptomatic), since [F] carries [betaA] in
    the symptomatic column. *)
Theorem F_minus_V_linearises_SEIR (p : params) E Ip Ia Is Rc t :
  defined p ->
  exists fm v dydt,
    F p = Ok fm /\ V p = Ok v /\
    SEIR_args p [N p; E; Ip; Ia; Is; Rc] t = Ok dydt /\
    infected dydt
    = zip_with Rplus
        (zip_with Rminus (matvec fm [E; Ip; Ia; Is]) (matvec v [E; Ip; Ia; Is]))
        [(betaS p - betaA p) * Is; 0; 0; 0] /\
    (infected dydt
     = zip_with Rminus (matvec fm [E; Ip; Ia; Is]) (matvec v [E; Ip; Ia; Is])
     <-> betaS p = betaA p \/ Is = 0).
Proof.
  intros Hp.
  assert (Hnz : durations_nonzero p).
  { destruct Hp as (_ & HE & HP & HI & HD). repeat split; assumption. }
  exists (F_matrix p), (V_matrix p), (rhs p [N p; E; Ip; Ia; Is; Rc]).
  split; [apply F_value |].
  split; [now apply V_value |].
  split; [now apply SEIR_args_defined |].
  destruct Hp as (HN & HE & HP & HI & HD).
  assert (Hlin : infected (rhs p [N p; E; Ip; Ia; Is; Rc])
                 = zip_with Rplus
                     (zip_with Rminus (matvec (F_matrix p) [E; Ip; Ia; Is])
                                      (matvec (V_matrix p) [E; Ip; Ia; Is]))
                     [(betaS p - betaA p) * Is; 0; 0; 0]).
  { unfold infected, rhs, SEIR_rhs, F_matrix, V_matrix, removal_rate, zip_with.
    cbn [nth skipn firstn]. mat_unfold.
    list_eq; field; auto. }
  split; [exact Hlin |].
  rewrite Hlin.
  unfold F_matrix, V_matrix, removal_rate, zip_with. mat_unfold.
  split.
  - intros H. injection H as H.
    assert (Hprod : (betaS p - betaA p) * Is = 0) by lra.
    apply Rmult_integral in Hprod. destruct Hprod; [left; lra | now right].
  - intros [H | H]; rewrite H; list_eq; ring.
Qed.

Lemma F_minus_V_linearises_SEIR_witness :
  exists fm v dydt,
    F notebook = Ok fm /\ V notebook = Ok v /\
    SEIR_args notebook [N notebook; 1; 0; 0; 14; 0] 0 = Ok dydt /\
    infected dydt
    = zip_with Rminus (matvec fm [1; 0; 0; 14]) (matvec v [1; 0; 0; 14]).
Proof.
  destruct (F_minus_V_linearises_SEIR notebook 1 0 0 14 0 0 notebook_defined)
    as (fm & v & dydt & HF & HV & Hcall & _ & Hiff).
  exists fm, v, dydt.
  split; [exact HF | split; [exact HV | split; [exact Hcall |]]].
  apply Hiff. left. reflexivity.
Defined.

(** * Further properties of the reproduction number *)

Lemma durations_nonzero_dec p : {durations_nonzero p} + {~ durations_nonzero p}.
Proof.
  unfold durations_nonzero.
  destruct (Req_dec_T (tauE p) 0); [right; tauto |].
  destruct (Req_dec_T (tauP p) 0); [right; tauto |].
  destruct (Req_dec_T (tauI p) 0); [right; tauto |].
  destruct (Req_dec_T (tauD p) 0); [right; tauto |].
  left. tauto.
Qed.

Lemma la_inv_V_singular p :
  durations_nonzero p -> removal_rate p = 0 ->
  la_inv (V_matrix p) = Err SingularMatrix.
Proof.
  intros _ Hr. unfold V_matrix at 1. apply la_inv_4_singular.
  change (det 4 (V_matrix p) = 0). rewrite det_V, Hr. ring.
Qed.

Lemma G_singular p :
  durations_nonzero p -> removal_rate p = 0 -> G p = Err SingularMatrix.
Proof.
  intros Hnz Hr. unfold G. rewrite V_value by exact Hnz. rewrite F_value.
  cbn [bind]. now rewrite la_inv_V_singular.
Qed.

Lemma G_zero_division p : ~ durations_nonzero p -> G p = Err ZeroDivisionError.
Proof. intros Hnot. unfold G. now rewrite V_raises. Qed.

Lemma R_0_outcome_nonzero p :
  durations_nonzero p ->
  R_0_outcome p = if Req_dec_T (removal_rate p) 0 then Err SingularMatrix
                  else Ok (Rmax 0 (R_0_closed p)).
Proof.
  intros (HE & HP & HI & HD). unfold R_0_outcome.
  destruct (Req_dec_T (tauE p) 0); [contradiction |].
  destruct (Req_dec_T (tauP p) 0); [contradiction |].
  destruct (Req_dec_T (tauI p) 0); [contradiction |].
  destruct (Req_dec_T (tauD p) 0); [contradiction |].
  reflexivity.
Qed.

Lemma R_0_outcome_zero p :
  ~ durations_nonzero p -> R_0_outcome p = Err ZeroDivisionError.
Proof.
  intros Hnot. unfold R_0_outcome.
  destruct (Req_dec_T (tauE p) 0); [reflexivity |].
  destruct (Req_dec_T (tauP p) 0); [reflexivity |].
  destruct (Req_dec_T (tauI p) 0); [reflexivity |].
  destruct (Req_dec_T (tauD p) 0); [reflexivity |].
  exfalso. apply Hnot. unfold durations_nonzero. tauto.
Qed.

(** The cell [R_0] has one outcome on every parameter record. *)
Lemma R_0_cell p res : R_0 p res <-> res = R_0_outcome p.
Proof.
  destruct (durations_nonzero_dec p) as [Hnz | Hnz].
  - rewrite R_0_outcome_nonzero by exact Hnz.
    destruct (Req_dec_T (removal_rate p) 0) as [Hr | Hr].
    + unfold R_0. rewrite G_singular by assumption. reflexivity.
    + now apply R_0_value.
  - rewrite R_0_outcome_zero by exact Hnz.
    unfold R_0. rewrite G_zero_division by exact Hnz. reflexivity.
Qed.

(** X7.  The three outcomes of the cell [G]: [ZeroDivisionError] exactly
    when a duration is zero; the [LinAlgError] of a singular matrix exactly
    when no duration is zero and [(1-d)/tauI + d/tauD = 0]; otherwise the
    array whose first row is
    [(R, R, betaA*tauI, betaA/((1-d)/tauI + d/tauD))], with [R] the closed
    form of the reproduction number, and whose other rows are zero.  [betaS],
    [tauE] and [N] do not occur in it. *)
Theorem G_outcomes (p : params) :
  (G p = Err ZeroDivisionError <-> ~ durations_nonzero p) /\
  (G p = Err SingularMatrix <-> durations_nonzero p /\ removal_rate p = 0) /\
  (forall g, G p = Ok g <->
             durations_nonzero p /\ removal_rate p <> 0 /\
             g = [[R_0_closed p; R_0_closed p; betaA p * tauI p;
                   betaA p / ((1 - d p) / tauI p + d p / tauD p)];
                  [0; 0; 0; 0]; [0; 0; 0; 0]; [0; 0; 0; 0]]) /\
  (forall e, G p = Err e -> e = ZeroDivisionError \/ e = SingularMatrix).
Proof.
  destruct (durations_nonzero_dec p) as [Hnz | Hnz].
  - destruct (Req_dec_T (removal_rate p) 0) as [Hr | Hr].
    + rewrite G_singular by assumption.
      split; [split; [discriminate | tauto] |].
      split; [tauto |].
      split; [| intros e H; inversion H; now right].
      intros g. split; [discriminate | tauto].
    + rewrite G_value by assumption.
      split; [split; [discriminate | tauto] |].
      split; [split; [discriminate | tauto] |].
      split; [| discriminate].
      intros g. split.
      * intros H. inversion H.
        split; [exact Hnz | split; [exact Hr | reflexivity]].
      * intros (_ & _ & ->). reflexivity.
  - rewrite G_zero_division by exact Hnz.
    split; [tauto |].
    split; [split; [discriminate | tauto] |].
    split; [| intros e H; inversion H; now left].
    intros g. split; [discriminate | tauto].
Qed.

(** X8.  On every parameter record the cell [R_0] has exactly one outcome,
    whatever the order in which [la.eig] lists the eigenvalues: the
    exception of [G] when [G] raises one, and otherwise the larger of [0]
    and the closed form, also for [d] outside the unit interval. *)
Theorem R_0_single_valued (p : params) :
  (exists res, R_0 p res) /\
  (forall res res', R_0 p res -> R_0 p res' -> res = res') /\
  (forall e, R_0 p (Err e) <-> G p = Err e) /\
  (forall r, R_0 p (Ok r) <->
             (exists g, G p = Ok g) /\ r = Rmax 0 (R_0_closed p)).
Proof.
  split; [exists (R_0_outcome p); now apply R_0_cell |].
  split.
  { intros res res' H H'. apply R_0_cell in H, H'. congruence. }
  destruct (durations_nonzero_dec p) as [Hnz | Hnz].
  - destruct (Req_dec_T (removal_rate p) 0) as [Hr | Hr].
    + split.
      * intros e. unfold R_0. rewrite G_singular by assumption.
        split; intros H; congruence.
      * intros r. unfold R_0. rewrite G_singular by assumption.
        split; [discriminate | intros [[g Hg] _]; discriminate].
    + split.
      * intros e. rewrite (R_0_value p Hnz Hr). rewrite G_value by assumption.
        split; discriminate.
      * intros r. rewrite (R_0_value p Hnz Hr). rewrite G_value by assumption.
        split.
        -- intros H. inversion H. split; [eauto | reflexivity].
        -- intros [_ ->]. reflexivity.
  - split.
    + intros e. unfold R_0. rewrite G_zero_division by exact Hnz.
      split; intros H; congruence.
    + intros r. unfold R_0. rewrite G_zero_division by exact Hnz.
      split; [discriminate | intros [[g Hg] _]; discriminate].
Qed.

(** X9.  The cell [R_0] reads neither the exposed duration nor the
    population size (nor [betaS]): two records that agree on [betaP],
    [betaA], [tauP], [tauI], [tauD], [f] and [d], both with [tauE] not
    zero, give the same outcome. *)
Theorem R_0_ignores_tauE_and_N (p q : params) :
  same_transmission p q -> tauE p <> 0 -> tauE q <> 0 ->
  forall res, R_0 p res <-> R_0 q res.
Proof.
  intros Hsame HEp HEq res.
  rewrite !R_0_cell.
  assert (Hout : R_0_outcome p = R_0_outcome q).
  { destruct p as [bP bA bS tE tP tI tD f0 d0 N0],
             q as [bP' bA' bS' tE' tP' tI' tD' f0' d0' N0'].
    unfold same_transmission in Hsame.
    cbn [betaP betaA tauE tauP tauI tauD f d] in *.
    destruct Hsame as (-> & -> & -> & -> & -> & -> & ->).
    unfold R_0_outcome, removal_rate, R_0_closed.
    cbn [betaP betaA tauE tauP tauI tauD f d].
    destruct (Req_dec_T tE 0); [contradiction |].
    destruct (Req_dec_T tE' 0); [contradiction |].
    reflexivity. }
  now rewrite Hout.
Qed.

Lemma R_0_ignores_tauE_and_N_witness :
  R_0 notebook (Ok (1121 / 275)) <->
  R_0 {| betaP := 0.8; betaA := 0.8; betaS := 0.1;
         tauE := 7; tauP := 1.5; tauI := 3.5; tauD := 14;
         f := 0.3; d := 0.05; N := 1 |} (Ok (1121 / 275)).
Proof.
  apply R_0_ignores_tauE_and_N.
  - repeat split; reflexivity.
  - cbn [tauE notebook]. lra.
  - cbn [tauE]. lra.
Defined.

(** X10.  The reproduction number does not decrease when the transmission
    rates [betaP] and [betaA] increase, for positive durations and [f], [d]
    in the unit interval. *)
Theorem R_0_monotone_in_rates (p q : params) :
  same_durations p q -> durations_positive p ->
  fraction (f p) -> fraction (d p) ->
  betaP p <= betaP q -> betaA p <= betaA q ->
  exists r r', R_0 p (Ok r) /\ R_0 q (Ok r') /\ r <= r'.
Proof.
  intros (HE & HP & HI & HD & Hf & Hd) Hpos [Hf0 Hf1] Hfd HbP HbA.
  assert (Hposq : durations_positive q).
  { unfold durations_positive. rewrite <- HE, <- HP, <- HI, <- HD. exact Hpos. }
  assert (Hfdq : fraction (d q)) by (rewrite <- Hd; exact Hfd).
  pose proof (removal_rate_pos p Hpos Hfd) as Hr.
  assert (Hrq : removal_rate q = removal_rate p).
  { unfold removal_rate. now rewrite <- HI, <- HD, <- Hd. }
  exists (Rmax 0 (R_0_closed p)), (Rmax 0 (R_0_closed q)).
  split; [apply R_0_value;
          [now apply positive_nonzero | now apply Rgt_not_eq | reflexivity] |].
  split; [apply R_0_value;
          [now apply positive_nonzero | rewrite Hrq; now apply Rgt_not_eq
          | reflexivity] |].
  apply Rle_max_compat_l.
  unfold R_0_closed. fold (removal_rate p) (removal_rate q).
  rewrite Hrq, <- HP, <- HI, <- Hf.
  destruct Hpos as (_ & HtP & HtI & _).
  pose proof (Rinv_0_lt_compat _ Hr) as Hir.
  unfold Rdiv.
  assert (H1 : betaP p * tauP p <= betaP q * tauP p)
    by (apply Rmult_le_compat_r; lra).
  assert (H2 : betaA p * f p * tauI p <= betaA q * f p * tauI p).
  { apply Rmult_le_compat_r; [lra |]. apply Rmult_le_compat_r; lra. }
  assert (H3 : betaA p * (1 - f p) * / removal_rate p
               <= betaA q * (1 - f p) * / removal_rate p).
  { apply Rmult_le_compat_r; [lra |]. apply Rmult_le_compat_r; lra. }
  lra.
Qed.

Lemma R_0_monotone_in_rates_witness :
  exists r r', R_0 notebook (Ok r) /\
               R_0 {| betaP := 0.9; betaA := 1; betaS := 0.8;
                      tauE := 3.5; tauP := 1.5; tauI := 3.5; tauD := 14;
                      f := 0.3; d := 0.05; N := 4.9 * 10 ^ 6 |} (Ok r') /\
               r <= r'.
Proof.
  apply R_0_monotone_in_rates.
  - repeat split; reflexivity.
  - exact notebook_positive.
  - exact notebook_f_fraction.
  - exact notebook_d_fraction.
  - cbn [betaP notebook]. lra.
  - cbn [betaA notebook]. lra.
Defined.

Lemma scaled_nonzero (c x : R) : c <> 0 -> (c * x = 0 <-> x = 0).
Proof.
  intros Hc. split.
  - intros H. apply Rmult_integral in H. tauto.
  - intros ->. ring.
Qed.

Lemma rescale_time_removal (c : R) p :
  c <> 0 -> tauI p <> 0 -> tauD p <> 0 ->
  removal_rate (rescale_time c p) = removal_rate p / c.
Proof.
  intros Hc HI HD. unfold removal_rate, rescale_time; cbn [tauI tauD d].
  field. auto.
Qed.

(** X11.  The reproduction number has no unit: after a change of the unit of
    time (durations multiplied by [c], rates divided by [c], [c] not zero)
    the cell [R_0] has the same outcome, value or exception. *)
Theorem R_0_invariant_under_time_unit (c : R) (p : params) :
  c <> 0 -> forall res, R_0 (rescale_time c p) res <-> R_0 p res.
Proof.
  intros Hc res. rewrite !R_0_cell.
  assert (Hout : R_0_outcome (rescale_time c p) = R_0_outcome p).
  { destruct (durations_nonzero_dec p) as [Hnz | Hnz].
    - assert (Hnz' : durations_nonzero (rescale_time c p)).
      { destruct Hnz as (HE & HP & HI & HD).
        unfold durations_nonzero, rescale_time; cbn [tauE tauP tauI tauD].
        rewrite !(scaled_nonzero c) by exact Hc. tauto. }
      rewrite !R_0_outcome_nonzero by assumption.
      destruct Hnz as (HE & HP & HI & HD).
      pose proof (rescale_time_removal c p Hc HI HD) as Hrem.
      destruct (Req_dec_T (removal_rate p) 0) as [Hr | Hr].
      + destruct (Req_dec_T (removal_rate (rescale_time c p)) 0) as [_ | Hr'];
          [reflexivity |].
        exfalso. apply Hr'. rewrite Hrem, Hr. unfold Rdiv. ring.
      + destruct (Req_dec_T (removal_rate (rescale_time c p)) 0) as [Hr' | _].
        * exfalso. apply Hr. rewrite Hrem in Hr'.
          now apply (quotient_zero _ c Hc).
        * do 2 f_equal. unfold R_0_closed.
          fold (removal_rate (rescale_time c p)) (removal_rate p).
          rewrite Hrem. unfold rescale_time; cbn [betaP betaA tauP tauI f].
          field. auto.
    - assert (Hnz' : ~ durations_nonzero (rescale_time c p)).
      { intros H. apply Hnz. revert H.
        unfold durations_nonzero, rescale_time; cbn [tauE tauP tauI tauD].
        rewrite !(scaled_nonzero c) by exact Hc. tauto. }
      now rewrite !R_0_outcome_zero. }
  now rewrite Hout.
Qed.

Lemma R_0_invariant_under_time_unit_witness :
  R_0 (rescale_time 24 notebook) (Ok (1121 / 275))
  <-> R_0 notebook (Ok (1121 / 275)).
Proof.
  apply R_0_invariant_under_time_unit. lra.
Defined.

(** X12.  The same change of the unit of time divides the derivative that
    [SEIR] returns by [c], and leaves an exception as it is. *)
Theorem SEIR_under_time_unit (c : R) (p : params) y t :
  c <> 0 ->
  SEIR_args (rescale_time c p) y t
  = (dydt <- SEIR_args p y t ;; Ok (scale (/ c) dydt)).
Proof.
  intros Hc.
  destruct p as [bP bA bS tE tP tI tD f0 d0 N0].
  unfold SEIR_args, rescale_time; cbn [betaP betaA betaS tauE tauP tauI tauD f d N].
  destruct (Nat.eq_dec (length y) 6) as [Hlen | Hlen].
  - destruct y as [|S [|E [|Ip [|Ia [|Is [|Rc [|? ?]]]]]]]; try discriminate Hlen.
    destruct (divisors_nonzero_dec tE tP tI tD N0) as [Hnz | Hnz].
    + assert (Hnz' : divisors_nonzero (c * tE) (c * tP) (c * tI) (c * tD) N0).
      { unfold divisors_nonzero in *.
        rewrite !(scaled_nonzero c) by exact Hc. exact Hnz. }
      rewrite (SEIR_defined _ _ _ _ _ _ _ _ _ _ _ _ _ _ _ _ _ Hnz).
      rewrite (SEIR_defined _ _ _ _ _ _ _ _ _ _ _ _ _ _ _ _ _ Hnz').
      cbn [bind]. unfold SEIR_rhs, scale; cbn [map].
      destruct Hnz as (HN & HE & HP & HI & HD).
      list_eq; field; auto.
    + assert (Hnz' : ~ divisors_nonzero (c * tE) (c * tP) (c * tI) (c * tD) N0).
      { intros H. apply Hnz. revert H. unfold divisors_nonzero.
        rewrite !(scaled_nonzero c) by exact Hc. tauto. }
      rewrite (SEIR_zero_divisor _ _ _ _ _ _ _ _ _ _ _ _ _ _ _ _ _ Hnz).
      rewrite (SEIR_zero_divisor _ _ _ _ _ _ _ _ _ _ _ _ _ _ _ _ _ Hnz').
      reflexivity.
  - rewrite !SEIR_wrong_length by exact Hlen. reflexivity.
Qed.

Lemma SEIR_under_time_unit_witness :
  SEIR_args (rescale_time 24 notebook) y0 0
  = (dydt <- SEIR_args notebook y0 0 ;; Ok (scale (/ 24) dydt)).
Proof.
  apply SEIR_under_time_unit. lra.
Defined.

(** X13.  The reproduction number is proportional to the transmission
    rates: multiplying [betaP], [betaA] and [betaS] by a factor [c >= 0]
    multiplies the value of the cell [R_0] by [c]. *)
Theorem R_0_proportional_to_rates (c : R) (p : params) (r : R) :
  0 <= c -> R_0 p (Ok r) -> R_0 (scale_rates c p) (Ok (c * r)).
Proof.
  intros Hc H. apply R_0_cell in H. apply R_0_cell.
  destruct (durations_nonzero_dec p) as [Hnz | Hnz];
    [| rewrite R_0_outcome_zero in H by exact Hnz; discriminate H].
  rewrite R_0_outcome_nonzero in H by exact Hnz.
  assert (Hnz' : durations_nonzero (scale_rates c p)) by exact Hnz.
  rewrite R_0_outcome_nonzero by exact Hnz'.
  change (removal_rate (scale_rates c p)) with (removal_rate p).
  destruct (Req_dec_T (removal_rate p) 0) as [Hr | Hr]; [discriminate H |].
  inversion H as [Hval]. f_equal.
  rewrite <- RmaxRmult by exact Hc. rewrite Rmult_0_r. f_equal.
  unfold R_0_closed. fold (removal_rate (scale_rates c p)) (removal_rate p).
  change (removal_rate (scale_rates c p)) with (removal_rate p).
  unfold scale_rates; cbn [betaP betaA tauP tauI f]. field. exact Hr.
Qed.

Lemma R_0_notebook_evaluates : R_0 notebook (Ok (1121 / 275)).
Proof.
  apply R_0_value.
  - exact (positive_nonzero _ notebook_positive).
  - apply Rgt_not_eq.
    exact (removal_rate_pos _ notebook_positive notebook_d_fraction).
  - rewrite R_0_closed_notebook. f_equal. symmetry. apply Rmax_right. lra.
Qed.

Lemma R_0_proportional_to_rates_witness :
  R_0 (scale_rates 0.5 notebook) (Ok (0.5 * (1121 / 275))).
Proof.
  apply R_0_proportional_to_rates; [lra | exact R_0_notebook_evaluates].
Defined.

(** * Further properties of the integration cells *)

Lemma nth_map_seq (g : nat -> R) (n i : nat) (dflt : R) :
  (i < n)%nat -> nth i (map g (seq 0 n)) dflt = g i.
Proof.
  intros Hi.
  rewrite (nth_indep _ dflt (g 0%nat)) by (now rewrite length_map, length_seq).
  rewrite map_nth. now rewrite seq_nth.
Qed.

(** X14.  The time grid that [np.linspace(start, stop, num)] hands to
    [odeint]: it has [num] points, the first is [start], the last is [stop]
    (for [num >= 2]), consecutive points are [(stop - start)/(num - 1)]
    apart, and for [start < stop] the points are strictly increasing. *)
Theorem linspace_grid (start stop : R) (num : nat) :
  length (linspace start stop num) = num /\
  ((1 <= num)%nat -> nth 0 (linspace start stop num) 0 = start) /\
  ((2 <= num)%nat -> nth (num - 1) (linspace start stop num) 0 = stop) /\
  (forall i, (S i < num)%nat ->
     nth (S i) (linspace start stop num) 0 - nth i (linspace start stop num) 0
     = (stop - start) / INR (num - 1)) /\
  (start < stop ->
   forall i j, (i < j < num)%nat ->
     nth i (linspace start stop num) 0 < nth j (linspace start stop num) 0).
Proof.
  unfold linspace.
  split; [now rewrite length_map, length_seq |].
  split; [intros Hn; rewrite nth_map_seq by lia; cbn [INR]; ring |].
  replace (pred num) with (num - 1)%nat by lia.
  split; [| split].
  - intros Hn. rewrite nth_map_seq by lia.
    assert (Hpos : INR (num - 1) <> 0) by (apply not_0_INR; lia).
    field. exact Hpos.
  - intros i Hi. rewrite !nth_map_seq by lia. rewrite S_INR. ring.
  - intros Hlt i j Hij. rewrite !nth_map_seq by lia.
    assert (Hstep : 0 < (stop - start) / INR (num - 1)).
    { apply Rdiv_lt_0_compat; [lra |]. apply lt_0_INR. lia. }
    assert (Hinr : INR i < INR j) by (apply lt_INR; lia).
    apply Rplus_lt_compat_l. now apply Rmult_lt_compat_r.
Qed.

Lemma linspace_grid_witness :
  length t = 71%nat /\ nth 0 t 0 = 0 /\ nth 70 t 0 = 70 /\
  nth 1 t 0 - nth 0 t 0 = (70 - 0) / INR 70 /\ nth 3 t 0 < nth 4 t 0.
Proof.
  destruct (linspace_grid 0 70 71) as (Hlen & Hfirst & Hlast & Hstep & Hinc).
  split; [exact Hlen |].
  split; [apply Hfirst; lia |].
  split; [apply Hlast; lia |].
  split; [apply (Hstep 0%nat); lia |].
  apply Hinc; [lra | lia].
Defined.



(** X16.  For positive durations, transmission rates that are not negative
    and [f], [d] in the unit interval, the inverse that [la.inv] returns for
    [V] and the next-generation matrix [G] have no negative entry. *)
Theorem G_has_no_negative_entry (p : params) :
  durations_positive p -> nonneg_rates p ->
  fraction (f p) -> fraction (d p) ->
  exists v vinv g,
    V p = Ok v /\ la_inv v = Ok vinv /\ G p = Ok g /\
    Forall (Forall (Rle 0)) vinv /\
    Forall (Forall (Rle 0)) g.
Proof.
  intros Hpos (HbP & HbA & HbS) [Hf0 Hf1] Hd.
  pose proof (positive_nonzero _ Hpos) as Hnz.
  pose proof (removal_rate_pos _ Hpos Hd) as Hr.
  pose proof (Rinv_0_lt_compat _ Hr) as Hir.
  assert (Hclosed : 0 <= R_0_closed p).
  { apply R_0_closed_nonneg; try assumption; now split. }
  exists (V_matrix p), (V_inverse p), (G_matrix p).
  split; [now apply V_value |].
  split; [apply la_inv_V; [exact Hnz | now apply Rgt_not_eq] |].
  split; [apply G_value; [exact Hnz | now apply Rgt_not_eq] |].
  destruct Hpos as (HtE & HtP & HtI & HtD).
  assert (Hq : 0 <= (1 - f p) / removal_rate p)
    by (unfold Rdiv; apply Rmult_le_pos; lra).
  assert (Hfi : 0 <= f p * tauI p) by (apply Rmult_le_pos; lra).
  assert (Hone : 0 <= 1 / removal_rate p) by (unfold Rdiv; lra).
  assert (HaI : 0 <= betaA p * tauI p) by (apply Rmult_le_pos; lra).
  assert (Har : 0 <= betaA p / removal_rate p)
    by (unfold Rdiv; apply Rmult_le_pos; lra).
  split; unfold V_inverse, G_matrix;
    repeat (apply Forall_cons || apply Forall_nil); lra.
Qed.

Lemma G_has_no_negative_entry_witness :
  exists v vinv g,
    V notebook = Ok v /\ la_inv v = Ok vinv /\ G notebook = Ok g /\
    Forall (Forall (Rle 0)) vinv /\
    Forall (Forall (Rle 0)) g.
Proof.
  exact (G_has_no_negative_entry notebook notebook_positive notebook_rates
                                 notebook_f_fraction notebook_d_fraction).
Defined.
